(** * Trento web: environment / node aggregation and filtering

    A shallow embedding of [web/environments.go]: the filter query
    builder, the node facade, the topology loader and the filter
    vocabulary loader, with the Consul client taken as a record of
    responses. *)

From Stdlib Require Import Ascii.
From Stdlib Require String.
From stdpp Require Import gmap strings list fin_maps.

Set Default Proof Using "Type".

(** ** Go strings *)

Module GoString.

(** The double-quote byte (0x22) of the Go format strings. *)
Definition dquote : string :=
  String (Ascii.Ascii false true false false false true false false) EmptyString.

(** [strings.HasPrefix(s, prefix)]. *)
Definition HasPrefix (s pre : string) : bool := String.prefix pre s.

(** [strings.Join(elems, sep)]. *)
Fixpoint Join (elems : list string) (sep : string) : string :=
  match elems with
  | [] => EmptyString
  | [e] => e
  | e :: rest => e +:+ sep +:+ Join rest sep
  end.

(** Go's [==] on strings. *)
Definition eqb (a b : string) : bool := bool_decide (a = b).

End GoString.

(** ** Constants *)

Definition TRENTO_PREFIX : string := "trento-".
Definition TRENTO_FILTERS_PREFIX : string := "trento/filters/".
Definition TRENTO_FILTERS : list string :=
  ["sap-environments"; "sap-landscapes"; "sap-systems"].

(** ** Ranging over a Go map

    [for k, v := range m] visits every entry of [m] once, in an order the
    language leaves open: a loop over a map is modelled as a loop over any
    list that is a permutation of the map's entries. *)

Definition range_order {V : Type} (m : gmap string V) (entries : list (string * V)) : Prop :=
  entries ≡ₚ map_to_list m.

(** ** Filter query builder *)

(** [fmt.Sprintf] with the format [%sMeta[q%sq] == q%sq], where [q] is the
    double-quote byte, applied to [filter], [key] and [value]. *)
Definition sprintf_meta_eq (filter key value : string) : string :=
  filter +:+ "Meta[" +:+ GoString.dquote +:+ key +:+ GoString.dquote +:+ "] == "
         +:+ GoString.dquote +:+ value +:+ GoString.dquote.

(** [fmt.Sprintf] with the format [%s or ], applied to [filter]. *)
Definition sprintf_or (filter : string) : string := filter +:+ " or ".

(** [values[len(values)-1]]; only evaluated inside the loop over [values],
    where the slice is not empty. *)
Definition last_value (values : list string) : string :=
  List.last values EmptyString.

(** One iteration of the inner loop of [CreateFilterMetaQuery]. *)
Definition filter_step (key : string) (values : list string)
    (filter value : string) : string :=
  let filter := sprintf_meta_eq filter key value in
  if negb (GoString.eqb (last_value values) value)
  then sprintf_or filter
  else filter.

(** The inner loop: starts from the empty [filter] and runs over [values]. *)
Definition tag_filter (key : string) (values : list string) : string :=
  foldl (filter_step key values) EmptyString values.

(** One iteration of the outer loop: [filters] grows by the tag's
    sub-expression when the key carries the reserved prefix. *)
Definition query_step (filters : list string) (entry : string * list string)
    : list string :=
  let '(key, values) := entry in
  if GoString.HasPrefix key TRENTO_PREFIX
  then filters ++ [tag_filter key values]
  else filters.

(** [CreateFilterMetaQuery] along one iteration order of [query]. *)
Definition CreateFilterMetaQuery_range (entries : list (string * list string)) : string :=
  let filters :=
    if decide (length entries ≠ 0)
    then foldl query_step [] entries
    else [] in
  GoString.Join filters " and ".

(** [CreateFilterMetaQuery query] can return [out]. *)
Inductive CreateFilterMetaQuery (query : gmap string (list string)) : string → Prop :=
  | CreateFilterMetaQuery_intro entries :
      range_order query entries →
      CreateFilterMetaQuery query (CreateFilterMetaQuery_range entries).

(** The equality clause for [key] and [value], built from the empty filter. *)
Definition meta_clause (key value : string) : string :=
  sprintf_meta_eq EmptyString key value.

(** ** Errors and panics *)

(** Values of Go's [error] interface, as far as the code tells them apart:
    an error handed back by a collaborator, or one annotated by
    [errors.Wrap]. A nil [error] is [None] of [option error]. *)
Inductive error : Type :=
  | BackendError (msg : string)
  | Wrapped (cause : error) (msg : string).

(** [errors.Wrap(err, message)] of github.com/pkg/errors: annotates [err]
    with [message]; if [err] is nil, [Wrap] returns nil. *)
Definition errors_Wrap (err : option error) (message : string) : option error :=
  match err with
  | None => None
  | Some cause => Some (Wrapped cause message)
  end.

(** A Go call either returns or panics. *)
Inductive outcome (A : Type) : Type :=
  | Done (a : A)
  | Panic (msg : string).
Arguments Done {A} a.
Arguments Panic {A} msg.

#[global] Instance outcome_ret : MRet outcome := λ A a, Done a.

#[global] Instance outcome_bind : MBind outcome := λ A B k o,
  match o with
  | Done a => k a
  | Panic msg => Panic msg
  end.

(** Go's [x != nil] on a pointer or an [error]. *)
Definition not_nil {A : Type} (x : option A) : bool :=
  match x with
  | Some _ => true
  | None => false
  end.

(** The runtime error of reading a field through a nil pointer. *)
Definition nil_dereference : string :=
  "invalid memory address or nil pointer dereference".

(** ** The Consul API types the code touches *)

Module consulApi.

(** [api.Node]; the Go field holding the node's name is itself called
    [Node]. *)
Record Node : Type := mkNode {
  ID : string;
  NodeName : string;
  Address : string;
  Datacenter : string;
  Meta : gmap string string
}.

(** [api.HealthCheck], with the fields an aggregation reads. *)
Record HealthCheck : Type := mkHealthCheck {
  CheckID : string;
  Status : string
}.

(** [api.KVPair]. *)
Record KVPair : Type := mkKVPair {
  Key : string;
  Value : string
}.

End consulApi.

(** [consul.Client]: what each remote call answers during one request. A
    Go result tuple [(value, error)] is a pair whose second component is
    [None] for a nil error; a nil slice is the empty list and a nil
    pointer is [None]. *)
Record Client : Type := mkClient {
  (** [client.Catalog().Datacenters()] *)
  Catalog_Datacenters : list string * option error;
  (** [client.Catalog().Nodes(&QueryOptions{Filter: f})], by [f] *)
  Catalog_Nodes : string → list consulApi.Node * option error;
  (** [client.Health().Node(name, nil)] *)
  Health_Node : string → list consulApi.HealthCheck * option error;
  (** [client.KV().Get(key, nil)]; for a key that does not exist the
      Consul client answers a nil pair with a nil error *)
  KV_Get : string → option consulApi.KVPair * option error
}.

(** ** Data model *)

(** [type Node struct { consulApi.Node; client consul.Client }] *)
Record Node : Type := mkWebNode {
  base : consulApi.Node;
  client : Client
}.

Record Environment : Type := mkEnvironment {
  Name : string;
  Nodes : list Node
}.

(** [type EnvironmentList map[string]*Environment] *)
Abbreviation EnvironmentList := (gmap string Environment).

(** [func (n *Node) Name() string] *)
Definition Node_Name (n : Node) : string := consulApi.NodeName (base n).

(** [func contains(s []string, str string) bool] *)
Fixpoint contains (s : list string) (str : string) : bool :=
  match s with
  | [] => false
  | v :: rest => if GoString.eqb v str then true else contains rest str
  end.

(** ** Tag-filtered metadata *)

(** One iteration of the loop of [TrentoMeta]. *)
Definition meta_step (filtered_meta : gmap string string) (entry : string * string)
    : gmap string string :=
  let '(key, value) := entry in
  if GoString.HasPrefix key TRENTO_PREFIX
  then <[key := value]> filtered_meta
  else filtered_meta.

(** [TrentoMeta] along one iteration order of the node's [Meta]. *)
Definition TrentoMeta_range (entries : list (string * string)) : gmap string string :=
  foldl meta_step ∅ entries.

(** [n.TrentoMeta()] can return [out]. *)
Inductive Node_TrentoMeta (n : Node) : gmap string string → Prop :=
  | Node_TrentoMeta_intro entries :
      range_order (consulApi.Meta (base n)) entries →
      Node_TrentoMeta n (TrentoMeta_range entries).

(** ** Node health and the topology loader *)

Section Topology.

(** [HealthChecks.AggregatedStatus()] of the Consul API client: the one
    status string summarising a list of checks. *)
Variable AggregatedStatus : list consulApi.HealthCheck → string.

(** [func (n *Node) Health() string]: the error of the query is
    discarded, the checks it came with are aggregated. *)
Definition Node_Health (n : Node) : string :=
  let '(checks, _) := Health_Node (client n) (Node_Name n) in
  AggregatedStatus checks.

(** [&Node{*node, client}] *)
Definition populate (c : Client) (node : consulApi.Node) : Node :=
  {| base := node; client := c |}.

(** The condition guarding the append in [loadEnvironments]. *)
Definition health_gate (health_filter : list string) (populated_node : Node) : bool :=
  bool_decide (length health_filter = 0)
  || contains health_filter (Node_Health populated_node).

(** The first loop of [loadEnvironments]: one entry per datacenter. *)
Definition seed_environments (environments : EnvironmentList) (dcs : list string)
    : EnvironmentList :=
  foldl (λ envs dc, <[dc := {| Name := dc; Nodes := [] |}]> envs) environments dcs.

(** One iteration of the second loop. [environments[node.Datacenter]] is
    a nil pointer when the key is missing, and reading its [Nodes]
    panics. *)
Definition attach_node (c : Client) (health_filter : list string)
    (environments : EnvironmentList) (node : consulApi.Node)
    : outcome EnvironmentList :=
  let populated_node := populate c node in
  if health_gate health_filter populated_node
  then match environments !! consulApi.Datacenter node with
       | Some env =>
           Done (<[consulApi.Datacenter node :=
                    {| Name := Name env; Nodes := Nodes env ++ [populated_node] |}]>
                 environments)
       | None => Panic nil_dereference
       end
  else Done environments.

(** The second loop of [loadEnvironments]. *)
Fixpoint attach_nodes (c : Client) (health_filter : list string)
    (environments : EnvironmentList) (nodes : list consulApi.Node)
    : outcome EnvironmentList :=
  match nodes with
  | [] => Done environments
  | node :: rest =>
      environments ← attach_node c health_filter environments node;
      attach_nodes c health_filter environments rest
  end.

(** [func loadEnvironments(client, query_filter, health_filter)
      (EnvironmentList, error)]; a nil [EnvironmentList] is [None]. *)
Definition loadEnvironments (c : Client) (query_filter : string)
    (health_filter : list string)
    : outcome (option EnvironmentList * option error) :=
  let environments : EnvironmentList := ∅ in
  let '(dcs, err) := Catalog_Datacenters c in
  if not_nil err
  then Done (None, errors_Wrap err "could not query Consul for datacenters")
  else
    let environments := seed_environments environments dcs in
    let '(nodes, err) := Catalog_Nodes c query_filter in
    if not_nil err
    then Done (None, errors_Wrap err "could not query Consul for nodes")
    else
      environments ← attach_nodes c health_filter environments nodes;
      Done (Some environments, None).

(** The health gate as the specification words it: no constraint was
    supplied, or the node's aggregated status is one of the accepted. *)
Definition passes_health (health_filter : list string) (n : Node) : Prop :=
  health_filter = [] ∨ Node_Health n ∈ health_filter.

#[global] Instance passes_health_dec health_filter n :
  Decision (passes_health health_filter n).
Proof. unfold passes_health. apply _. Defined.

(** The nodes expected under datacenter [dc]: the returned nodes of that
    datacenter that pass the gate, in the order of the catalog. *)
Definition expected_nodes (c : Client) (health_filter : list string) (dc : string)
    (nodes : list consulApi.Node) : list Node :=
  filter (λ n, consulApi.Datacenter (base n) = dc ∧ passes_health health_filter n)
         (populate c <$> nodes).

End Topology.

(** ** Filter vocabulary loader *)

Section Vocabulary.

(** [json.Unmarshal(data, &unmarshalled)] at type [[]string]: the decoded
    slice together with the decoder's error. *)
Variable json_Unmarshal_strings : string → list string * option error.

(** [func loadFilter(client, filter) ([]string, error)] *)
Definition loadFilter (c : Client) (filter : string) : list string * option error :=
  let '(filters, err) := KV_Get c filter in
  match filters with
  | None =>
      ([], errors_Wrap err "could not query Consul for filters on the KV storage")
  | Some kv =>
      let '(unmarshalled, err) := json_Unmarshal_strings (consulApi.Value kv) in
      if not_nil err
      then ([], errors_Wrap err "error decoding the filter data")
      else (unmarshalled, None)
  end.

(** The loop of [loadFilters] over the names still to be loaded. *)
Fixpoint loadFilters_loop (c : Client) (names : list string)
    (filter_data : gmap string (list string))
    : option (gmap string (list string)) * option error :=
  match names with
  | [] => (Some filter_data, None)
  | filter :: rest =>
      let '(filters, err) := loadFilter c (TRENTO_FILTERS_PREFIX +:+ filter) in
      if not_nil err
      then (None, err)
      else loadFilters_loop c rest (<[filter := filters]> filter_data)
  end.

(** [func loadFilters(client) (map[string][]string, error)]; a nil map is
    [None]. *)
Definition loadFilters (c : Client)
    : option (gmap string (list string)) * option error :=
  loadFilters_loop c TRENTO_FILTERS ∅.

End Vocabulary.

(** ** Detailed check report *)

Section Checks.

(** [check.Controls] of bench-common, and the value of [&check.Controls{}]. *)
Variable Controls : Type.
Variable zero_Controls : Controls.

(** [*http.Response]. *)
Variable Response : Type.

(** [http.Get(url)]; on error the response is to be ignored. *)
Variable http_Get : string → Response * option error.

(** [io.ReadAll(resp.Body)]. *)
Variable io_ReadAll : Response → string * option error.

(** [json.Unmarshal(body, checks)]: the value [checks] points to after
    the call, and the decoder's error. *)
Variable json_Unmarshal_Controls : string → Controls → Controls * option error.

(** The address requested by [Checks]: [fmt.Sprintf] with the format
    [http://%s:%d], applied to [n.Address] and [8700]. *)
Definition checks_url (n : Node) : string :=
  "http://" +:+ consulApi.Address (base n) +:+ ":" +:+ "8700".

(** [func (n *Node) Checks() *check.Controls], together with what it
    hands to [log.Print]; a nil result is [None]. *)
Definition Node_Checks (n : Node) : option Controls * list error :=
  let checks := zero_Controls in
  let '(resp, err) := http_Get (checks_url n) in
  match err with
  | Some e => (None, [e])
  | None =>
      let '(body, err) := io_ReadAll resp in
      match err with
      | Some e => (None, [e])
      | None =>
          let '(checks, err) := json_Unmarshal_Controls body checks in
          match err with
          | Some e => (None, [e])
          | None => (Some checks, [])
          end
      end
  end.

(** The first of the three steps of [Checks] to fail on [n], with its
    error: the request, reading the body, or decoding it. *)
Definition check_failure (n : Node) (e : error) : Prop :=
  let '(resp, get_err) := http_Get (checks_url n) in
  let '(body, read_err) := io_ReadAll resp in
  let '(_, decode_err) := json_Unmarshal_Controls body zero_Controls in
  get_err = Some e
  ∨ (get_err = None ∧ read_err = Some e)
  ∨ (get_err = None ∧ read_err = None ∧ decode_err = Some e).

End Checks.

(** ** Sample backends

    Concrete collaborators on which the loaders are run in the examples. *)

Module Fixture.

(** The precedence the Consul API client documents for
    [AggregatedStatus]: maintenance > critical > warning > passing, the
    empty string for a status it does not know, and passing for an empty
    list of checks. *)
Definition is_maintenance (check : consulApi.HealthCheck) : bool :=
  GoString.eqb (consulApi.CheckID check) "_node_maintenance"
  || GoString.HasPrefix (consulApi.CheckID check) "_service_maintenance:".

Definition known_status (check : consulApi.HealthCheck) : bool :=
  is_maintenance check
  || contains ["passing"; "warning"; "critical"] (consulApi.Status check).

Definition has_status (status : string) (checks : list consulApi.HealthCheck) : bool :=
  existsb (λ check, negb (is_maintenance check)
                    && GoString.eqb (consulApi.Status check) status) checks.

Definition consul_AggregatedStatus (checks : list consulApi.HealthCheck) : string :=
  if negb (forallb known_status checks) then EmptyString
  else if existsb is_maintenance checks then "maintenance"
  else if has_status "critical" checks then "critical"
  else if has_status "warning" checks then "warning"
  else "passing".

Definition node_A : consulApi.Node :=
  consulApi.mkNode "id-a" "A" "10.0.0.1" "dc1"
    {[ "trento-sap-environment" := "prod"; "os" := "linux" ]}.
Definition node_B : consulApi.Node :=
  consulApi.mkNode "id-b" "B" "10.0.0.2" "dc1" ∅.
Definition node_C : consulApi.Node :=
  consulApi.mkNode "id-c" "C" "10.0.1.1" "dc2" ∅.
(** A node reported under a datacenter the catalog does not list. *)
Definition node_stray : consulApi.Node :=
  consulApi.mkNode "id-s" "S" "10.0.9.9" "dc9" ∅.

Definition refused : error := BackendError "connection refused".

(** Health answers: [A] passes, [B] is critical, the query for [C]
    fails and, as the Consul client does on failure, hands back no
    checks; any other node has no checks. *)
Definition health (name : string) : list consulApi.HealthCheck * option error :=
  if GoString.eqb name "A" then ([consulApi.mkHealthCheck "serfHealth" "passing"], None)
  else if GoString.eqb name "B" then ([consulApi.mkHealthCheck "serfHealth" "critical"], None)
  else if GoString.eqb name "C" then ([], Some refused)
  else ([], None).

(** The stored vocabularies, as JSON text. *)
Definition json_empty_list : string := "[]".
Definition json_prod_dev : string :=
  "[" +:+ GoString.dquote +:+ "prod" +:+ GoString.dquote +:+ ","
      +:+ GoString.dquote +:+ "dev" +:+ GoString.dquote +:+ "]".

(** A decoder that knows the two texts above and rejects anything else. *)
Definition decode (data : string) : list string * option error :=
  if GoString.eqb data json_empty_list then ([], None)
  else if GoString.eqb data json_prod_dev then (["prod"; "dev"], None)
  else ([], Some (BackendError "invalid character")).

(** A key-value store holding two of the three vocabularies: the key of
    [sap-landscapes] does not exist, which the Consul client reports as
    a nil pair with a nil error. *)
Definition kv (key : string) : option consulApi.KVPair * option error :=
  if GoString.eqb key "trento/filters/sap-environments"
  then (Some (consulApi.mkKVPair key json_prod_dev), None)
  else if GoString.eqb key "trento/filters/sap-systems"
  then (Some (consulApi.mkKVPair key json_empty_list), None)
  else (None, None).

(** A key-value store whose [sap-systems] vocabulary is not JSON. *)
Definition kv_garbled (key : string) : option consulApi.KVPair * option error :=
  if GoString.eqb key "trento/filters/sap-systems"
  then (Some (consulApi.mkKVPair key "{oops"), None)
  else (Some (consulApi.mkKVPair key json_empty_list), None).

Definition backend : Client :=
  {| Catalog_Datacenters := (["dc1"; "dc2"], None);
     Catalog_Nodes := λ _, ([node_A; node_B; node_C], None);
     Health_Node := health;
     KV_Get := kv |}.

(** Two datacenters and no node at all. *)
Definition backend_no_nodes : Client :=
  {| Catalog_Datacenters := (["dc1"; "dc2"], None);
     Catalog_Nodes := λ _, ([], None);
     Health_Node := health;
     KV_Get := kv |}.

(** The catalog lists [dc1] only, yet a node reports [dc9]. *)
Definition backend_stray : Client :=
  {| Catalog_Datacenters := (["dc1"], None);
     Catalog_Nodes := λ _, ([node_A; node_stray], None);
     Health_Node := health;
     KV_Get := kv |}.

(** The datacenter enumeration fails. *)
Definition backend_down : Client :=
  {| Catalog_Datacenters := ([], Some refused);
     Catalog_Nodes := λ _, ([], Some refused);
     Health_Node := λ _, ([], Some refused);
     KV_Get := λ _, (None, Some refused) |}.

Definition backend_garbled : Client :=
  {| Catalog_Datacenters := (["dc1"; "dc2"], None);
     Catalog_Nodes := λ _, ([node_A; node_B; node_C], None);
     Health_Node := health;
     KV_Get := kv_garbled |}.

(** A tag filter as parsed from the request's query string. *)
Definition query : gmap string (list string) :=
  {[ "trento-sap-environment" := ["prod"; "dev"]; "health" := ["passing"] ]}.

(** A check endpoint nobody listens on. *)
Definition unreachable (url : string) : unit * option error := ((), Some refused).
Definition read_nothing (resp : unit) : string * option error := (EmptyString, None).
Definition decode_nothing (body : string) (checks : list string)
    : list string * option error := (checks, None).

End Fixture.

(** ** Nodes without an Environment *)

(** A returned node that passes the health gate and reports a datacenter
    outside [dcs]: the node whose Environment the attaching loop would
    read without finding it. *)
Definition stray_node (AggregatedStatus : list consulApi.HealthCheck → string)
    (c : Client) (health_filter dcs : list string) (node : consulApi.Node) : Prop :=
  passes_health AggregatedStatus health_filter (populate c node)
  ∧ consulApi.Datacenter node ∉ dcs.

#[global] Instance stray_node_dec AggregatedStatus c health_filter dcs node :
  Decision (stray_node AggregatedStatus c health_filter dcs node).
Proof. unfold stray_node. apply _. Defined.

(** ** Single-node health checks *)

(** [func loadHealthChecks(client, node) ([]*consulApi.HealthCheck, error)] *)
Definition loadHealthChecks (c : Client) (node : string)
    : list consulApi.HealthCheck * option error :=
  let '(checks, err) := Health_Node c node in
  if not_nil err
  then ([], errors_Wrap err "could not query Consul for health checks")
  else (checks, None).

(** ** Request handlers *)

(** What a handler leaves in the gin context: an error attached with
    [c.Error(err)], or a page rendered with [c.HTML(code, name, obj)]. *)
Inductive response (D : Type) : Type :=
  | Errored (err : error)
  | HTML (code : nat) (name : string) (obj : D).
Arguments Errored {D} err.
Arguments HTML {D} code name obj.

(** [http.StatusOK] *)
Definition StatusOK : nat := 200.

(** The [gin.H] handed to [environments.html.tmpl]. *)
Record EnvironmentsListPage : Type := mkEnvironmentsListPage {
  Page_Environments : option EnvironmentList;
  Page_Filters : option (gmap string (list string));
  Page_AppliedFilters : gmap string (list string)
}.

(** The [gin.H] handed to [environment.html.tmpl]. *)
Record EnvironmentPage : Type := mkEnvironmentPage {
  Page_Node : Node;
  Page_HealthChecks : list consulApi.HealthCheck
}.

(** [api.CatalogNode], with its pointer to the node. *)
Record CatalogNode : Type := mkCatalogNode {
  CatalogNode_Node : option consulApi.Node
}.

Section Handlers.

Variable AggregatedStatus : list consulApi.HealthCheck → string.
Variable json_Unmarshal_strings : string → list string * option error.

(** [client.Catalog().Node(name, nil)]: the pointer to the catalog node
    and the error. *)
Variable Catalog_Node : Client → string → option CatalogNode * option error.

(** The handler returned by [NewEnvironmentsListHandler(client)], run on
    the request's query values along one iteration order of them.
    [query["health"]] of a missing key is the nil slice. *)
Definition EnvironmentsListHandler_range (c : Client)
    (query : gmap string (list string)) (entries : list (string * list string))
    : outcome (response EnvironmentsListPage) :=
  let query_filter := CreateFilterMetaQuery_range entries in
  let health_filter := default [] (query !! "health") in
  loaded ← loadEnvironments AggregatedStatus c query_filter health_filter;
  let '(environments, err) := loaded in
  match err with
  | Some e => Done (Errored e)
  | None =>
      let '(filters, err) := loadFilters json_Unmarshal_strings c in
      match err with
      | Some e => Done (Errored e)
      | None =>
          Done (HTML StatusOK "environments.html.tmpl"
                  {| Page_Environments := environments;
                     Page_Filters := filters;
                     Page_AppliedFilters := query |})
      end
  end.

(** The handler can leave [r] on the request with query values [query]. *)
Inductive NewEnvironmentsListHandler (c : Client) (query : gmap string (list string))
    : outcome (response EnvironmentsListPage) → Prop :=
  | NewEnvironmentsListHandler_intro entries :
      range_order query entries →
      NewEnvironmentsListHandler c query (EnvironmentsListHandler_range c query entries).

(** [&Node{*catalogNode.Node, client}]: both pointers are read, and a nil
    one panics. *)
Definition node_of_catalog (c : Client) (catalogNode : option CatalogNode)
    : outcome Node :=
  match catalogNode with
  | None => Panic nil_dereference
  | Some cn =>
      match CatalogNode_Node cn with
      | None => Panic nil_dereference
      | Some node => Done (populate c node)
      end
  end.

(** The handler returned by [NewEnvironmentHandler(client)], run on the
    path parameter [name]. *)
Definition NewEnvironmentHandler (c : Client) (name : string)
    : outcome (response EnvironmentPage) :=
  let '(catalogNode, err) := Catalog_Node c name in
  match err with
  | Some e => Done (Errored e)
  | None =>
      let '(checks, err) := loadHealthChecks c name in
      match err with
      | Some e => Done (Errored e)
      | None =>
          n ← node_of_catalog c catalogNode;
          Done (HTML StatusOK "environment.html.tmpl"
                  {| Page_Node := n; Page_HealthChecks := checks |})
      end
  end.

(** The collaborators of [Checks], as in the section above. *)
Variable Controls : Type.
Variable zero_Controls : Controls.
Variable Response : Type.
Variable http_Get : string → Response * option error.
Variable io_ReadAll : Response → string * option error.
Variable json_Unmarshal_Controls : string → Controls → Controls * option error.

(** The [gin.H] handed to [ha_checks.html.tmpl]. *)
Record CheckPage : Type := mkCheckPage {
  Page_NodeName : string;
  Page_CheckID : string;
  Page_CheckContent : option Controls
}.

(** The handler returned by [NewCheckHandler(client)], run on the path
    parameters [name] and [checkid], together with what was logged. *)
Definition NewCheckHandler (c : Client) (name checkid : string)
    : outcome (response CheckPage * list error) :=
  let '(catalogNode, err) := Catalog_Node c name in
  match err with
  | Some e => Done (Errored e, [])
  | None =>
      node ← node_of_catalog c catalogNode;
      let '(report, logged) :=
        Node_Checks Controls zero_Controls Response http_Get io_ReadAll
                    json_Unmarshal_Controls node in
      Done (HTML StatusOK "ha_checks.html.tmpl"
              {| Page_NodeName := name;
                 Page_CheckID := checkid;
                 Page_CheckContent := report |},
            logged)
  end.

End Handlers.

(** ** Further sample requests *)

Module Sample.

(** The catalog knows the nodes of the sample backend by name and
    answers a nil pointer with a nil error for any other name. *)
Definition catalog_node (c : Client) (name : string)
    : option CatalogNode * option error :=
  if GoString.eqb name "A" then (Some (mkCatalogNode (Some Fixture.node_A)), None)
  else if GoString.eqb name "B" then (Some (mkCatalogNode (Some Fixture.node_B)), None)
  else if GoString.eqb name "C" then (Some (mkCatalogNode (Some Fixture.node_C)), None)
  else (None, None).

(** A key-value store holding all three vocabularies. *)
Definition kv_full (key : string) : option consulApi.KVPair * option error :=
  if GoString.eqb key "trento/filters/sap-environments"
  then (Some (consulApi.mkKVPair key Fixture.json_prod_dev), None)
  else (Some (consulApi.mkKVPair key Fixture.json_empty_list), None).

Definition backend_full : Client :=
  {| Catalog_Datacenters := (["dc1"; "dc2"], None);
     Catalog_Nodes := λ _, ([Fixture.node_A; Fixture.node_B; Fixture.node_C], None);
     Health_Node := Fixture.health;
     KV_Get := kv_full |}.

(** The request [?trento-sap-environment=prod&health=critical]. *)
Definition query_one_tag : gmap string (list string) :=
  {[ "trento-sap-environment" := ["prod"]; "health" := ["critical"] ]}.

(** The page the list handler renders for that request on
    [backend_full]: only [B] is critical. *)
Definition rendered_page : EnvironmentsListPage :=
  {| Page_Environments :=
       Some {[ "dc1" := {| Name := "dc1";
                           Nodes := [populate backend_full Fixture.node_B] |};
               "dc2" := {| Name := "dc2"; Nodes := [] |} ]};
     Page_Filters :=
       Some {[ "sap-environments" := ["prod"; "dev"];
               "sap-landscapes" := [];
               "sap-systems" := [] ]};
     Page_AppliedFilters := query_one_tag |}.

End Sample.

(** * Properties *)

(** ** Strings *)

Lemma append_nil_r (s : string) : s +:+ EmptyString = s.
Proof.
  induction s as [|a s IH]; [done|].
  change (String a (s +:+ EmptyString) = String a s). by f_equal.
Qed.

Lemma append_assoc (s t u : string) : (s +:+ t) +:+ u = s +:+ (t +:+ u).
Proof.
  induction s as [|a s IH]; [done|].
  change (String a ((s +:+ t) +:+ u) = String a (s +:+ (t +:+ u))). by f_equal.
Qed.

Lemma Join_cons (e : string) (rest : list string) (sep : string) :
  rest ≠ [] → GoString.Join (e :: rest) sep = e +:+ sep +:+ GoString.Join rest sep.
Proof. by destruct rest. Qed.

Lemma eqb_true (a b : string) : GoString.eqb a b = true ↔ a = b.
Proof. unfold GoString.eqb. by rewrite bool_decide_eq_true. Qed.

Lemma eqb_false (a b : string) : GoString.eqb a b = false ↔ a ≠ b.
Proof. unfold GoString.eqb. by rewrite bool_decide_eq_false. Qed.

Lemma contains_elem_of (s : list string) (str : string) :
  contains s str = true ↔ str ∈ s.
Proof.
  induction s as [|v rest IH]; simpl.
  - split; [done | by intros ?%elem_of_nil].
  - rewrite elem_of_cons. destruct (GoString.eqb v str) eqn:E.
    + apply eqb_true in E. split; [intros _; by left | done].
    + apply eqb_false in E. rewrite IH.
      split; [by right | by intros [?|?]; [congruence|]].
Qed.

(** ** Ranging over a map *)

Lemma range_order_map_to_list {V : Type} (m : gmap string V) :
  range_order m (map_to_list m).
Proof. by unfold range_order. Qed.

Lemma range_order_elem_of {V : Type} (m : gmap string V) entries key (v : V) :
  range_order m entries → (key, v) ∈ entries ↔ m !! key = Some v.
Proof. intros ->. apply elem_of_map_to_list. Qed.

Lemma range_order_NoDup {V : Type} (m : gmap string V) entries :
  range_order m entries → NoDup (entries.*1).
Proof. intros ->. apply NoDup_fst_map_to_list. Qed.

(** ** Filter query builder *)

Lemma sprintf_meta_eq_clause (filter key value : string) :
  sprintf_meta_eq filter key value = filter +:+ meta_clause key value.
Proof. reflexivity. Qed.

(** The inner loop over a list whose final value occurs nowhere before the
    final position yields the disjunction of the equality clauses. *)
Lemma filter_loop_disjunction (key : string) (values front : list string)
    (v acc : string) :
  last_value values = v →
  v ∉ front →
  foldl (filter_step key values) acc (front ++ [v])
  = acc +:+ GoString.Join (meta_clause key <$> (front ++ [v])) " or ".
Proof.
  intros Hlast. revert acc.
  induction front as [|x front IH]; intros acc Hnotin.
  - simpl. unfold filter_step. rewrite Hlast.
    replace (GoString.eqb v v) with true by (symmetry; by apply eqb_true).
    simpl. apply sprintf_meta_eq_clause.
  - apply not_elem_of_cons in Hnotin as [Hne Hnotin].
    change ((x :: front) ++ [v]) with (x :: (front ++ [v])).
    rewrite fmap_cons, Join_cons
      by (rewrite fmap_app; by destruct (meta_clause key <$> front)).
    cbn [foldl]. rewrite IH by done.
    unfold filter_step. rewrite Hlast.
    replace (GoString.eqb v x) with false by (symmetry; by apply eqb_false).
    cbn [negb]. unfold sprintf_or. rewrite sprintf_meta_eq_clause.
    by rewrite !append_assoc.
Qed.

Lemma tag_filter_disjunction (key : string) (front : list string) (v : string) :
  v ∉ front →
  tag_filter key (front ++ [v])
  = GoString.Join (meta_clause key <$> (front ++ [v])) " or ".
Proof.
  intros Hnotin. unfold tag_filter.
  rewrite (filter_loop_disjunction key (front ++ [v]) front v EmptyString); try done.
  unfold last_value. by rewrite last_last.
Qed.

(** The outer loop collects the sub-expression of every reserved tag, in
    the order the entries are visited. *)
Lemma query_loop_filter (entries : list (string * list string)) (filters : list string) :
  foldl query_step filters entries
  = filters ++ ((λ e, tag_filter e.1 e.2) <$>
                filter (λ e, GoString.HasPrefix e.1 TRENTO_PREFIX = true) entries).
Proof.
  revert filters. induction entries as [|[key values] entries IH]; intros filters; simpl.
  - by rewrite app_nil_r.
  - rewrite IH. rewrite filter_cons. simpl.
    destruct (GoString.HasPrefix key TRENTO_PREFIX) eqn:E.
    + rewrite decide_True by done. by rewrite <-app_assoc.
    + rewrite decide_False by done. done.
Qed.

Lemma CreateFilterMetaQuery_range_join (entries : list (string * list string)) :
  CreateFilterMetaQuery_range entries
  = GoString.Join ((λ e, tag_filter e.1 e.2) <$>
                   filter (λ e, GoString.HasPrefix e.1 TRENTO_PREFIX = true) entries)
                  " and ".
Proof.
  unfold CreateFilterMetaQuery_range. case_decide as Hlen.
  - by rewrite query_loop_filter.
  - destruct entries; [done | simpl in Hlen; lia].
Qed.

(** The builder always returns: every map has an iteration order. *)
Lemma CreateFilterMetaQuery_total (query : gmap string (list string)) :
  ∃ out, CreateFilterMetaQuery query out.
Proof.
  exists (CreateFilterMetaQuery_range (map_to_list query)).
  constructor. apply range_order_map_to_list.
Qed.

(** C4 (the code departs from the claim). The claim: for a reserved tag and
    a non-empty list of values, the per-tag sub-expression is the equality
    clauses of the values, in order, with the separator [ or ] between
    consecutive clauses and nowhere else. The inner loop decides whether to
    add the separator by comparing the current value with the final value
    of the list, not the current position with the final position: when
    the final value also occurs earlier, the separator after that earlier
    clause is missing. For the tag [trento-x] with values [a; b; a] the
    clauses for [a] and [b] are glued together. *)
Theorem C4_tag_filter_repeated_last_value :
  GoString.HasPrefix "trento-x" TRENTO_PREFIX = true
  ∧ tag_filter "trento-x" ["a"; "b"; "a"]
    = meta_clause "trento-x" "a" +:+ meta_clause "trento-x" "b" +:+ " or "
      +:+ meta_clause "trento-x" "a"
  ∧ GoString.Join (meta_clause "trento-x" <$> ["a"; "b"; "a"]) " or "
    = meta_clause "trento-x" "a" +:+ " or " +:+ meta_clause "trento-x" "b" +:+ " or "
      +:+ meta_clause "trento-x" "a"
  ∧ tag_filter "trento-x" ["a"; "b"; "a"]
    ≠ GoString.Join (meta_clause "trento-x" <$> ["a"; "b"; "a"]) " or ".
Proof. vm_compute. repeat split; discriminate. Qed.

(** C5. Whatever order the map is ranged over, the builder's output is the
    [ and ]-join of the per-tag sub-expressions of exactly the entries whose
    key begins with the reserved prefix, taken in some order; entries
    without the prefix contribute nothing; and when no key of the map
    carries the prefix (in particular when the map is empty) the output is
    the empty string. *)
Theorem C5_CreateFilterMetaQuery_conjunction
    (query : gmap string (list string)) (out : string) :
  CreateFilterMetaQuery query out →
  (∃ tags : list (string * list string),
      tags ≡ₚ filter (λ e, GoString.HasPrefix e.1 TRENTO_PREFIX = true)
                     (map_to_list query)
      ∧ out = GoString.Join ((λ e, tag_filter e.1 e.2) <$> tags) " and ")
  ∧ ((∀ key, is_Some (query !! key) → GoString.HasPrefix key TRENTO_PREFIX = false)
     → out = EmptyString).
Proof.
  intros [entries Horder]. rewrite CreateFilterMetaQuery_range_join. split.
  - eexists. split; [|reflexivity]. unfold range_order in Horder. by rewrite Horder.
  - intros Hnone.
    destruct (filter _ entries) as [|[key values] rest] eqn:Hfilter; [done|].
    assert ((key, values) ∈ filter (λ e, GoString.HasPrefix e.1 TRENTO_PREFIX = true)
                                   entries) as Hin
      by (rewrite Hfilter; left).
    apply list_elem_of_filter in Hin as [Hpre Hin]. simpl in Hpre.
    apply (range_order_elem_of query) in Hin; [|done].
    rewrite Hnone in Hpre; [done | by eexists].
Qed.

(** ** Tag-filtered metadata *)

(** What the loop of [TrentoMeta] has collected after visiting entries with
    pairwise distinct keys. *)
Lemma TrentoMeta_range_lookup (entries : list (string * string)) (key value : string) :
  NoDup (entries.*1) →
  TrentoMeta_range entries !! key = Some value
  ↔ (key, value) ∈ entries ∧ GoString.HasPrefix key TRENTO_PREFIX = true.
Proof.
  unfold TrentoMeta_range.
  induction entries as [|[k0 v0] entries IH] using rev_ind; intros Hnodup.
  - simpl. rewrite lookup_empty. split; [done | by intros [?%elem_of_nil _]].
  - rewrite fmap_app in Hnodup. apply NoDup_app in Hnodup as (Hnodup & Hfresh & _).
    specialize (IH Hnodup). rewrite foldl_snoc, elem_of_app, list_elem_of_singleton.
    assert (k0 ∉ entries.*1) as Hk0
      by (intros Hin; apply (Hfresh k0 Hin); simpl; left).
    unfold meta_step at 1.
    destruct (GoString.HasPrefix k0 TRENTO_PREFIX) eqn:Hpre.
    + destruct (decide (key = k0)) as [->|Hne].
      * rewrite lookup_insert_eq. split.
        -- intros [= ->]. split; [by right | done].
        -- intros [[Hin | [= ->]] _]; [|done].
           exfalso. apply Hk0. apply list_elem_of_fmap. by exists (k0, value).
      * rewrite lookup_insert_ne by done. rewrite IH.
        split; [intros [? ?]; split; [by left | done]|].
        intros [[Hin | [= -> ->]] ?]; [done | congruence].
    + rewrite IH. split; [intros [? ?]; split; [by left | done]|].
      intros [[Hin | [= -> ->]] ?]; [done | congruence].
Qed.

(** C9. The tag-filtered metadata view exists for every node (the operation
    has no failure mode), is the same mapping whatever order the metadata
    is ranged over (the operation is a function of the metadata alone), and
    contains exactly the key/value pairs of the node's metadata whose key
    begins with the reserved prefix, with the same values; in particular no
    key outside the reserved namespace is exposed. *)
Theorem C9_TrentoMeta_reserved_view (n : Node) :
  ∃ view : gmap string string,
    Node_TrentoMeta n view
    ∧ (∀ view', Node_TrentoMeta n view' → view' = view)
    ∧ (∀ key value,
          view !! key = Some value
          ↔ consulApi.Meta (base n) !! key = Some value
            ∧ GoString.HasPrefix key TRENTO_PREFIX = true)
    ∧ (∀ key, is_Some (view !! key) → GoString.HasPrefix key TRENTO_PREFIX = true).
Proof.
  assert (∀ view, Node_TrentoMeta n view →
            ∀ key value, view !! key = Some value
              ↔ consulApi.Meta (base n) !! key = Some value
                ∧ GoString.HasPrefix key TRENTO_PREFIX = true) as Hview.
  { intros view [entries Horder] key value.
    rewrite TrentoMeta_range_lookup by (by eapply range_order_NoDup).
    by rewrite (range_order_elem_of _ _ _ _ Horder). }
  assert (Node_TrentoMeta n (TrentoMeta_range (map_to_list (consulApi.Meta (base n)))))
    as Hrun by (constructor; apply range_order_map_to_list).
  eexists. split; [exact Hrun|]. split; [|split].
  - intros view' Hrun'. apply map_eq. intros key.
    apply option_eq. intros value.
    by rewrite (Hview _ Hrun'), (Hview _ Hrun).
  - by apply Hview.
  - intros key [value Hlookup]. by apply (Hview _ Hrun) in Hlookup as [_ ?].
Qed.

(** ** Topology loader *)

Section TopologyProperties.

Context (AggregatedStatus : list consulApi.HealthCheck → string).

Local Abbreviation gate := (health_gate AggregatedStatus).
Local Abbreviation passes := (passes_health AggregatedStatus).
Local Abbreviation expected := (expected_nodes AggregatedStatus).
Local Abbreviation attach_all := (attach_nodes AggregatedStatus).
Local Abbreviation load := (loadEnvironments AggregatedStatus).

Lemma health_gate_true (health_filter : list string) (n : Node) :
  gate health_filter n = true ↔ passes health_filter n.
Proof.
  unfold health_gate, passes_health.
  rewrite orb_true_iff, bool_decide_eq_true, contains_elem_of.
  by rewrite length_zero_iff_nil.
Qed.

Lemma expected_nodes_cons c health_filter dc node nodes :
  expected c health_filter dc (node :: nodes)
  = if decide (consulApi.Datacenter node = dc
               ∧ passes health_filter (populate c node))
    then populate c node :: expected c health_filter dc nodes
    else expected c health_filter dc nodes.
Proof. unfold expected_nodes. by rewrite fmap_cons, filter_cons. Qed.

(** The seeding loop leaves one empty environment under every listed
    datacenter and nothing else new. *)
Lemma seed_environments_lookup (environments : EnvironmentList) dcs dc :
  seed_environments environments dcs !! dc
  = if decide (dc ∈ dcs) then Some {| Name := dc; Nodes := [] |}
    else environments !! dc.
Proof.
  unfold seed_environments. revert environments.
  induction dcs as [|d dcs IH]; intros environments; cbn [foldl].
  - by rewrite decide_False by apply not_elem_of_nil.
  - rewrite IH. destruct (decide (dc ∈ dcs)) as [Hin|Hnotin].
    + by rewrite decide_True by (by right).
    + destruct (decide (dc = d)) as [->|Hne].
      * rewrite decide_True by left. by rewrite lookup_insert_eq.
      * rewrite decide_False by (by intros [?|?]%elem_of_cons).
        by rewrite lookup_insert_ne.
Qed.

(** The attaching loop returns when every node that passes the gate has
    its environment, and then appends the expected nodes to each. *)
Lemma attach_nodes_returns c health_filter nodes (environments : EnvironmentList) :
  (∀ node, node ∈ nodes → gate health_filter (populate c node) = true →
           is_Some (environments !! consulApi.Datacenter node)) →
  ∃ environments' : EnvironmentList,
    attach_all c health_filter environments nodes = Done environments'
    ∧ ∀ dc, environments' !! dc
            = (λ env, {| Name := Name env;
                         Nodes := Nodes env ++ expected c health_filter dc nodes |})
              <$> environments !! dc.
Proof.
  revert environments.
  induction nodes as [|node nodes IH]; intros environments Hknown.
  - exists environments. split; [done|]. intros dc.
    destruct (environments !! dc) as [[name ns]|]; simpl; [|done].
    unfold expected_nodes. simpl. by rewrite filter_nil, app_nil_r.
  - cbn [attach_nodes]. unfold attach_node.
    destruct (gate health_filter (populate c node)) eqn:Hgate.
    + destruct (Hknown node) as [env Henv]; [left | done |]. rewrite Henv.
      cbn [mbind outcome_bind].
      edestruct (IH (<[consulApi.Datacenter node :=
                       {| Name := Name env; Nodes := Nodes env ++ [populate c node] |}]>
                     environments)) as (environments' & Hrun & Hlookup).
      { intros node' Hin Hgate'. apply lookup_insert_is_Some'. right.
        apply Hknown; [by right | done]. }
      exists environments'. split; [done|]. intros dc.
      rewrite Hlookup, expected_nodes_cons.
      apply health_gate_true in Hgate.
      destruct (decide (consulApi.Datacenter node = dc)) as [<-|Hne].
      * rewrite lookup_insert_eq, Henv. simpl.
        rewrite decide_True by done. by rewrite <-app_assoc.
      * rewrite lookup_insert_ne by done.
        by rewrite decide_False by (by intros [? _]).
    + cbn [mbind outcome_bind].
      destruct (IH environments) as (environments' & Hrun & Hlookup).
      { intros node' Hin Hgate'. apply Hknown; [by right | done]. }
      exists environments'. split; [done|]. intros dc.
      rewrite Hlookup, expected_nodes_cons.
      rewrite decide_False; [done|].
      intros [_ Hpass%health_gate_true]. congruence.
Qed.

(** The attaching loop panics as soon as a node that passes the gate
    reports a datacenter with no environment. *)
Lemma attach_nodes_panics c health_filter nodes (environments : EnvironmentList) :
  (∃ node, node ∈ nodes ∧ gate health_filter (populate c node) = true
           ∧ environments !! consulApi.Datacenter node = None) →
  attach_all c health_filter environments nodes = Panic nil_dereference.
Proof.
  revert environments.
  induction nodes as [|node0 nodes IH]; intros environments (node & Hin & Hgate & Hnone).
  - by apply elem_of_nil in Hin.
  - cbn [attach_nodes]. unfold attach_node.
    destruct (gate health_filter (populate c node0)) eqn:Hgate0.
    + destruct (environments !! consulApi.Datacenter node0) as [env|] eqn:Henv; [|done].
      cbn [mbind outcome_bind]. apply IH. exists node.
      apply elem_of_cons in Hin as [->|Hin]; [congruence|].
      split; [done|]. split; [done|].
      rewrite lookup_insert_ne; [done | congruence].
    + cbn [mbind outcome_bind]. apply IH. exists node.
      apply elem_of_cons in Hin as [->|Hin]; [congruence | done].
Qed.

(** When both enumerations succeed and every node that passes the gate
    reports a listed datacenter, the load returns the seeded map with
    the expected nodes under each datacenter. *)
Lemma loadEnvironments_returns c query_filter health_filter dcs nodes :
  Catalog_Datacenters c = (dcs, None) →
  Catalog_Nodes c query_filter = (nodes, None) →
  (∀ node, node ∈ nodes → passes health_filter (populate c node) →
           consulApi.Datacenter node ∈ dcs) →
  ∃ environments : EnvironmentList,
    load c query_filter health_filter = Done (Some environments, None)
    ∧ ∀ dc, environments !! dc
            = if decide (dc ∈ dcs)
              then Some {| Name := dc; Nodes := expected c health_filter dc nodes |}
              else None.
Proof.
  intros Hdcs Hnodes Hknown. unfold loadEnvironments. rewrite Hdcs, Hnodes. simpl.
  destruct (attach_nodes_returns c health_filter nodes (seed_environments ∅ dcs))
    as (environments & Hrun & Hlookup).
  { intros node Hin Hgate%health_gate_true.
    rewrite seed_environments_lookup, decide_True by (by apply Hknown). by eexists. }
  exists environments. rewrite Hrun. split; [done|]. intros dc.
  rewrite Hlookup, seed_environments_lookup. by case_decide.
Qed.

(** When the enumerations succeed, the load panics as soon as a node
    that passes the gate reports an unlisted datacenter. *)
Lemma loadEnvironments_panics c query_filter health_filter dcs nodes node :
  Catalog_Datacenters c = (dcs, None) →
  Catalog_Nodes c query_filter = (nodes, None) →
  node ∈ nodes →
  passes health_filter (populate c node) →
  consulApi.Datacenter node ∉ dcs →
  load c query_filter health_filter = Panic nil_dereference.
Proof.
  intros Hdcs Hnodes Hin Hpass Hstray. unfold loadEnvironments.
  rewrite Hdcs, Hnodes. simpl.
  rewrite (attach_nodes_panics c health_filter nodes (seed_environments ∅ dcs)); [done|].
  exists node. split; [done|]. split; [by apply health_gate_true|].
  by rewrite seed_environments_lookup, decide_False.
Qed.

(** C1. When both enumerations succeed and no node that passes the gate
    reports an unlisted datacenter, the load returns a list in which every
    enumerated datacenter has its Environment and no other key has one,
    and the node list of the Environment of a datacenter is the list of
    returned nodes, in the order of the catalog, restricted to those whose
    datacenter is that one and that pass the health gate: with an empty
    constraint list every node of the datacenter, with a non-empty one the
    nodes of the datacenter whose aggregated status is a member of the
    list. *)
Theorem C1_nodes_attached_by_datacenter_and_health
    c query_filter health_filter dcs nodes :
  Catalog_Datacenters c = (dcs, None) →
  Catalog_Nodes c query_filter = (nodes, None) →
  (∀ node, node ∈ nodes → passes health_filter (populate c node) →
           consulApi.Datacenter node ∈ dcs) →
  ∃ environments : EnvironmentList,
    load c query_filter health_filter = Done (Some environments, None)
    ∧ (∀ dc, dc ∉ dcs → environments !! dc = None)
    ∧ ∀ dc, dc ∈ dcs →
        ∃ env, environments !! dc = Some env
               ∧ Name env = dc
               ∧ (health_filter = [] →
                  Nodes env = filter (λ n, consulApi.Datacenter (base n) = dc)
                                     (populate c <$> nodes))
               ∧ (health_filter ≠ [] →
                  Nodes env
                  = filter (λ n, consulApi.Datacenter (base n) = dc
                                 ∧ Node_Health AggregatedStatus n ∈ health_filter)
                           (populate c <$> nodes)).
Proof.
  intros Hdcs Hnodes Hknown.
  destruct (loadEnvironments_returns c query_filter health_filter dcs nodes)
    as (environments & Hrun & Hlookup); [done..|].
  exists environments. split; [done|]. split.
  { intros dc Hnotin. by rewrite Hlookup, decide_False. }
  intros dc Hin. rewrite Hlookup, decide_True by done.
  eexists. split; [reflexivity|]. split; [done|]. simpl.
  unfold expected_nodes, passes_health. split; intros Hfilter.
  - apply list_filter_iff. intros n. split; [by intros [? _] | by intros ?; split; [|left]].
  - apply list_filter_iff. intros n. split.
    + by intros [? [?|?]].
    + intros [? ?]. split; [done | by right].
Qed.

(** C2. When both enumerations succeed and the load returns, the keys of
    the returned EnvironmentList are exactly the reported datacenters, as
    they already are in the map seeded before any node is attached; the
    Environment under a datacenter carries that name, and a datacenter
    with no node that matches it and passes the gate has an empty node
    list. *)
Theorem C2_one_environment_per_datacenter
    c query_filter health_filter dcs nodes :
  Catalog_Datacenters c = (dcs, None) →
  Catalog_Nodes c query_filter = (nodes, None) →
  (∀ node, node ∈ nodes → passes health_filter (populate c node) →
           consulApi.Datacenter node ∈ dcs) →
  ∃ environments : EnvironmentList,
    load c query_filter health_filter = Done (Some environments, None)
    ∧ dom environments = list_to_set dcs
    ∧ dom (seed_environments ∅ dcs) = list_to_set dcs
    ∧ (∀ dc, dc ∈ dcs →
         seed_environments ∅ dcs !! dc = Some {| Name := dc; Nodes := [] |})
    ∧ ∀ dc, dc ∈ dcs →
        ∃ env, environments !! dc = Some env
               ∧ Name env = dc
               ∧ ((∀ node, node ∈ nodes → consulApi.Datacenter node = dc →
                            ¬ passes health_filter (populate c node)) →
                  Nodes env = []).
Proof.
  intros Hdcs Hnodes Hknown.
  destruct (loadEnvironments_returns c query_filter health_filter dcs nodes)
    as (environments & Hrun & Hlookup); [done..|].
  exists environments. split; [done|]. repeat split.
  - apply set_eq. intros dc. rewrite elem_of_dom, Hlookup, elem_of_list_to_set.
    case_decide; [split; [done | by eexists] | split; [by intros [? ?] | done]].
  - apply set_eq. intros dc.
    rewrite elem_of_dom, seed_environments_lookup, elem_of_list_to_set, lookup_empty.
    case_decide; [split; [done | by eexists] | split; [by intros [? ?] | done]].
  - intros dc Hin. by rewrite seed_environments_lookup, decide_True.
  - intros dc Hin. rewrite Hlookup, decide_True by done.
    eexists. split; [done|]. split; [done|]. simpl. intros Hnone.
    unfold expected_nodes.
    destruct (filter _ (populate c <$> nodes)) as [|n rest] eqn:Hfilter; [done|].
    assert (n ∈ n :: rest) as Hn by left. rewrite <-Hfilter in Hn.
    apply list_elem_of_filter in Hn as [[Hdc Hpass] Hn].
    apply list_elem_of_fmap in Hn as (node & -> & Hnode).
    by destruct (Hnone node Hnode Hdc).
Qed.

(** C6. When the datacenter enumeration fails, or it succeeds and the
    filtered node enumeration fails, the topology load returns a nil
    EnvironmentList together with one error: the backend's error wrapped
    with the message naming the query that failed. *)
Theorem C6_enumeration_failure_is_fatal c query_filter health_filter (e : error) :
  (Catalog_Datacenters c).2 = Some e
  ∨ ((Catalog_Datacenters c).2 = None ∧ (Catalog_Nodes c query_filter).2 = Some e) →
  ∃ message,
    load c query_filter health_filter = Done (None, Some (Wrapped e message))
    ∧ ((Catalog_Datacenters c).2 = Some e →
       message = "could not query Consul for datacenters")
    ∧ ((Catalog_Datacenters c).2 = None →
       message = "could not query Consul for nodes").
Proof.
  unfold loadEnvironments.
  destruct (Catalog_Datacenters c) as [dcs dc_err].
  destruct (Catalog_Nodes c query_filter) as [nodes node_err]. simpl.
  intros [-> | [-> ->]]; simpl; eexists; (split; [reflexivity|]); by split.
Qed.

(** C7 (amended). When the Health Client query for a node's identifier
    fails, the aggregated-health accessor propagates no error and does not
    crash: it discards the error and returns the aggregate of whatever
    checks came back with the failure, which is the very string a
    successful query with those checks yields, not a value of its own. A
    topology load whose enumerations succeed and whose nodes report listed
    datacenters still returns, and gates that node on this string. *)
Theorem C7_failed_health_query_is_swallowed
    c query_filter health_filter dcs nodes node checks (e : error) :
  Catalog_Datacenters c = (dcs, None) →
  Catalog_Nodes c query_filter = (nodes, None) →
  (∀ node', node' ∈ nodes → consulApi.Datacenter node' ∈ dcs) →
  node ∈ nodes →
  Health_Node c (consulApi.NodeName node) = (checks, Some e) →
  Node_Health AggregatedStatus (populate c node) = AggregatedStatus checks
  ∧ (∀ n', Health_Node (client n') (Node_Name n') = (checks, None) →
           Node_Health AggregatedStatus n' = AggregatedStatus checks)
  ∧ ∃ (environments : EnvironmentList) env,
      load c query_filter health_filter = Done (Some environments, None)
      ∧ environments !! consulApi.Datacenter node = Some env
      ∧ (populate c node ∈ Nodes env
         ↔ health_filter = [] ∨ AggregatedStatus checks ∈ health_filter).
Proof.
  intros Hdcs Hnodes Hknown Hin Hhealth.
  assert (Node_Health AggregatedStatus (populate c node) = AggregatedStatus checks)
    as Hagg by (unfold Node_Health, Node_Name; simpl; by rewrite Hhealth).
  split; [done|]. split.
  { intros n' Hn'. unfold Node_Health. by rewrite Hn'. }
  destruct (loadEnvironments_returns c query_filter health_filter dcs nodes)
    as (environments & Hrun & Hlookup); [done | done | by auto |].
  exists environments. eexists. split; [done|].
  rewrite Hlookup, decide_True by auto. split; [done|]. simpl.
  unfold expected_nodes. rewrite list_elem_of_filter, list_elem_of_fmap.
  unfold passes_health. rewrite Hagg. split.
  - by intros [[_ ?] _].
  - intros Hpass. split; [done | by exists node].
Qed.

(** C10 (amended). With both enumerations successful: if every returned
    node reports a datacenter among the enumerated ones, the load reads no
    missing Environment entry and returns; and a returned node that passes
    the health gate and whose datacenter is not enumerated makes the load
    panic on a nil Environment, with no error returned and no Environment
    created for it. *)
Theorem C10_stray_datacenter_panics
    c query_filter health_filter dcs nodes :
  Catalog_Datacenters c = (dcs, None) →
  Catalog_Nodes c query_filter = (nodes, None) →
  ((∀ node, node ∈ nodes → consulApi.Datacenter node ∈ dcs) →
   ∃ environments : EnvironmentList,
     load c query_filter health_filter = Done (Some environments, None))
  ∧ ((∃ node, node ∈ nodes
              ∧ passes health_filter (populate c node)
              ∧ consulApi.Datacenter node ∉ dcs) →
     load c query_filter health_filter = Panic nil_dereference).
Proof.
  intros Hdcs Hnodes. split.
  - intros Hknown.
    destruct (loadEnvironments_returns c query_filter health_filter dcs nodes)
      as (environments & Hrun & _); [done | done | by auto |].
    by exists environments.
  - intros (node & Hin & Hpass & Hstray).
    by apply (loadEnvironments_panics c query_filter health_filter dcs nodes node).
Qed.

End TopologyProperties.

(** ** Filter vocabulary loader *)

Section VocabularyProperties.

Context (json_Unmarshal_strings : string → list string * option error).

Local Abbreviation load_one := (loadFilter json_Unmarshal_strings).
Local Abbreviation load_loop := (loadFilters_loop json_Unmarshal_strings).
Local Abbreviation load_all := (loadFilters json_Unmarshal_strings).

(** A failed fetch is reported with the vocabulary's context message. *)
Lemma loadFilter_fetch_error c filter (e : error) :
  KV_Get c filter = (None, Some e) →
  load_one c filter
  = ([], Some (Wrapped e "could not query Consul for filters on the KV storage")).
Proof. intros Hget. unfold loadFilter. by rewrite Hget. Qed.

(** A value that does not decode is reported as a decoding error. *)
Lemma loadFilter_decode_error c filter kv fetch_err partial (e : error) :
  KV_Get c filter = (Some kv, fetch_err) →
  json_Unmarshal_strings (consulApi.Value kv) = (partial, Some e) →
  load_one c filter = ([], Some (Wrapped e "error decoding the filter data")).
Proof. intros Hget Hdecode. unfold loadFilter. by rewrite Hget, Hdecode. Qed.

(** A key that does not exist comes back as a nil pair with a nil error;
    wrapping the nil error gives nil, so the caller sees an empty list and
    no error. *)
Lemma loadFilter_absent_key c filter :
  KV_Get c filter = (None, None) → load_one c filter = ([], None).
Proof. intros Hget. unfold loadFilter. by rewrite Hget. Qed.

(** The loop either fills in every remaining name or returns a nil map
    with an error. *)
Lemma loadFilters_loop_all_or_nothing c names (filter_data : gmap string (list string)) :
  (∃ vocabulary : gmap string (list string),
      load_loop c names filter_data = (Some vocabulary, None)
      ∧ (∀ name, name ∈ names ∨ is_Some (filter_data !! name) →
                 is_Some (vocabulary !! name))
      ∧ ∀ name, name ∈ names →
                (load_one c (TRENTO_FILTERS_PREFIX +:+ name)).2 = None)
  ∨ (∃ e, load_loop c names filter_data = (None, Some e)).
Proof.
  revert filter_data. induction names as [|name names IH]; intros filter_data.
  - left. exists filter_data. split; [done|]. split.
    + by intros name [?%elem_of_nil | ?].
    + by intros name ?%elem_of_nil.
  - cbn [loadFilters_loop].
    destruct (load_one c (TRENTO_FILTERS_PREFIX +:+ name)) as [filters [e|]] eqn:Hone.
    + right. by exists e.
    + cbn [not_nil].
      destruct (IH (<[name := filters]> filter_data))
        as [(vocabulary & Hrun & Hfull & Hclean) | [e Hrun]].
      * left. exists vocabulary. split; [done|]. split.
        -- intros name' [[->|Hin]%elem_of_cons | Hsome]; apply Hfull.
           ++ right. rewrite lookup_insert_eq. by eexists.
           ++ by left.
           ++ right. apply lookup_insert_is_Some'. by right.
        -- intros name' [->|Hin]%elem_of_cons; [by rewrite Hone | by apply Hclean].
      * right. by exists e.
Qed.

(** The part of the all-or-nothing claim the code does keep: the loader
    returns a mapping with a list for each of the three names, or a nil
    mapping with an error; and a failed fetch or a failed decode of any
    one name gives the latter. *)
Lemma loadFilters_all_or_nothing c :
  (∃ vocabulary : gmap string (list string),
      load_all c = (Some vocabulary, None)
      ∧ ∀ name, name ∈ TRENTO_FILTERS → is_Some (vocabulary !! name))
  ∨ (∃ e, load_all c = (None, Some e)).
Proof.
  destruct (loadFilters_loop_all_or_nothing c TRENTO_FILTERS ∅)
    as [(vocabulary & Hrun & Hfull & _) | Herr]; [left | by right].
  exists vocabulary. split; [done|]. intros name Hin. apply Hfull. by left.
Qed.

Lemma loadFilters_failure_aborts c name :
  name ∈ TRENTO_FILTERS →
  (load_one c (TRENTO_FILTERS_PREFIX +:+ name)).2 ≠ None →
  ∃ e, load_all c = (None, Some e).
Proof.
  intros Hin Hfail.
  destruct (loadFilters_loop_all_or_nothing c TRENTO_FILTERS ∅)
    as [(vocabulary & _ & _ & Hclean) | Herr]; [|done].
  by destruct (Hfail (Hclean name Hin)).
Qed.

End VocabularyProperties.

(** C3 (the code departs from the claim). The claim: a fetch failure, an
    absent key or a decode failure of any one of the three names makes the
    whole vocabulary load return an error and no mapping. For a fetch
    failure and a decode failure the code does so. For an absent key it
    does not: the store answers a nil pair with a nil error, [loadFilter]
    wraps that nil error, which stays nil, and [loadFilters] goes on and
    returns a mapping in which the name has an empty list, with no error.
    Here the key of [sap-landscapes] does not exist. *)
Theorem C3_absent_key_is_not_an_error :
  KV_Get Fixture.backend (TRENTO_FILTERS_PREFIX +:+ "sap-landscapes") = (None, None)
  ∧ loadFilter Fixture.decode Fixture.backend (TRENTO_FILTERS_PREFIX +:+ "sap-landscapes")
    = ([], None)
  ∧ loadFilters Fixture.decode Fixture.backend
    = (Some {[ "sap-environments" := ["prod"; "dev"];
               "sap-landscapes" := [];
               "sap-systems" := [] ]},
       None).
Proof. vm_compute. repeat split. Qed.

(** ** Detailed check report *)

Section ChecksProperties.

Context {Controls Response : Type} (zero_Controls : Controls).
Context (http_Get : string → Response * option error).
Context (io_ReadAll : Response → string * option error).
Context (json_Unmarshal_Controls : string → Controls → Controls * option error).

Local Abbreviation checks_of :=
  (Node_Checks Controls zero_Controls Response http_Get io_ReadAll
               json_Unmarshal_Controls).
Local Abbreviation fails_with :=
  (check_failure Controls zero_Controls Response http_Get io_ReadAll
                 json_Unmarshal_Controls).

(** Whichever step fails, the report is absent and the error is logged. *)
Lemma Node_Checks_failure (n : Node) (e : error) :
  fails_with n e → checks_of n = (None, [e]).
Proof.
  unfold check_failure, Node_Checks.
  destruct (http_Get (checks_url n)) as [resp get_err].
  destruct (io_ReadAll resp) as [body read_err].
  destruct (json_Unmarshal_Controls body zero_Controls) as [checks decode_err].
  by intros [-> | [[-> ->] | (-> & -> & ->)]].
Qed.

(** When the three steps succeed the decoded report is returned. *)
Lemma Node_Checks_success (n : Node) resp body checks :
  http_Get (checks_url n) = (resp, None) →
  io_ReadAll resp = (body, None) →
  json_Unmarshal_Controls body zero_Controls = (checks, None) →
  checks_of n = (Some checks, []).
Proof. intros Hget Hread Hdecode. unfold Node_Checks. by rewrite Hget, Hread, Hdecode. Qed.

(** C8. For every node, when the request to its check endpoint, the read
    of the answer or its decoding fails, the detailed check report is
    absent and the error is only logged, never returned. The topology load
    does not consult the check endpoint: with successful enumerations and
    listed datacenters it returns all the same, and the node, fields
    intact, is in the node list of its Environment whenever it passes the
    health gate. *)
Theorem C8_check_failure_yields_absent_report (n : Node) (e : error) :
  fails_with n e →
  checks_of n = (None, [e])
  ∧ ∀ AggregatedStatus query_filter health_filter dcs nodes,
      Catalog_Datacenters (client n) = (dcs, None) →
      Catalog_Nodes (client n) query_filter = (nodes, None) →
      (∀ node, node ∈ nodes → consulApi.Datacenter node ∈ dcs) →
      base n ∈ nodes →
      passes_health AggregatedStatus health_filter n →
      ∃ (environments : EnvironmentList) env,
        loadEnvironments AggregatedStatus (client n) query_filter health_filter
        = Done (Some environments, None)
        ∧ environments !! consulApi.Datacenter (base n) = Some env
        ∧ n ∈ Nodes env.
Proof.
  intros Hfail. split; [by apply Node_Checks_failure|].
  intros AggregatedStatus query_filter health_filter dcs nodes Hdcs Hnodes Hknown Hin Hpass.
  destruct (loadEnvironments_returns AggregatedStatus (client n) query_filter
              health_filter dcs nodes)
    as (environments & Hrun & Hlookup); [done | done | by auto |].
  exists environments. eexists. split; [done|].
  rewrite Hlookup, decide_True by auto. split; [done|]. simpl.
  unfold expected_nodes. rewrite list_elem_of_filter, list_elem_of_fmap.
  split; [done|]. exists (base n). split; [by destruct n | done].
Qed.

End ChecksProperties.

(** * The loaders on the sample backends *)

Lemma C1_witness :
  ∃ environments : EnvironmentList,
    loadEnvironments Fixture.consul_AggregatedStatus Fixture.backend EmptyString ["passing"]
    = Done (Some environments, None)
    ∧ (∀ dc, dc ∉ ["dc1"; "dc2"] → environments !! dc = None)
    ∧ ∀ dc, dc ∈ ["dc1"; "dc2"] →
        ∃ env, environments !! dc = Some env
               ∧ Name env = dc
               ∧ (["passing"] = [] →
                  Nodes env
                  = filter (λ n, consulApi.Datacenter (base n) = dc)
                           (populate Fixture.backend
                              <$> [Fixture.node_A; Fixture.node_B; Fixture.node_C]))
               ∧ (["passing"] ≠ [] →
                  Nodes env
                  = filter (λ n, consulApi.Datacenter (base n) = dc
                                 ∧ Node_Health Fixture.consul_AggregatedStatus n
                                   ∈ ["passing"])
                           (populate Fixture.backend
                              <$> [Fixture.node_A; Fixture.node_B; Fixture.node_C])).
Proof.
  apply (C1_nodes_attached_by_datacenter_and_health Fixture.consul_AggregatedStatus
           Fixture.backend EmptyString ["passing"] ["dc1"; "dc2"]);
    [reflexivity | reflexivity |].
  intros node Hin _. rewrite !elem_of_cons in Hin.
  destruct Hin as [-> | [-> | [-> | Hin]]]; [compute_done.. | by apply elem_of_nil in Hin].
Defined.

Lemma C2_witness :
  ∃ environments : EnvironmentList,
    loadEnvironments Fixture.consul_AggregatedStatus Fixture.backend_no_nodes
                     EmptyString []
    = Done (Some environments, None)
    ∧ dom environments = list_to_set ["dc1"; "dc2"]
    ∧ dom (seed_environments ∅ ["dc1"; "dc2"]) = list_to_set ["dc1"; "dc2"]
    ∧ (∀ dc, dc ∈ ["dc1"; "dc2"] →
         seed_environments ∅ ["dc1"; "dc2"] !! dc = Some {| Name := dc; Nodes := [] |})
    ∧ ∀ dc, dc ∈ ["dc1"; "dc2"] →
        ∃ env, environments !! dc = Some env
               ∧ Name env = dc
               ∧ ((∀ node, node ∈ [] → consulApi.Datacenter node = dc →
                            ¬ passes_health Fixture.consul_AggregatedStatus []
                                (populate Fixture.backend_no_nodes node)) →
                  Nodes env = []).
Proof.
  apply (C2_one_environment_per_datacenter Fixture.consul_AggregatedStatus
           Fixture.backend_no_nodes EmptyString [] ["dc1"; "dc2"] []);
    [reflexivity | reflexivity |].
  intros node Hin. by apply elem_of_nil in Hin.
Defined.

Lemma C5_witness :
  (∃ tags : list (string * list string),
      tags ≡ₚ filter (λ e, GoString.HasPrefix e.1 TRENTO_PREFIX = true)
                     (map_to_list Fixture.query)
      ∧ CreateFilterMetaQuery_range (map_to_list Fixture.query)
        = GoString.Join ((λ e, tag_filter e.1 e.2) <$> tags) " and ")
  ∧ ((∀ key, is_Some (Fixture.query !! key) →
             GoString.HasPrefix key TRENTO_PREFIX = false)
     → CreateFilterMetaQuery_range (map_to_list Fixture.query) = EmptyString).
Proof.
  apply (C5_CreateFilterMetaQuery_conjunction Fixture.query).
  constructor. unfold range_order. reflexivity.
Defined.

Lemma C6_witness :
  ∃ message,
    loadEnvironments Fixture.consul_AggregatedStatus Fixture.backend_down EmptyString []
    = Done (None, Some (Wrapped Fixture.refused message))
    ∧ ((Catalog_Datacenters Fixture.backend_down).2 = Some Fixture.refused →
       message = "could not query Consul for datacenters")
    ∧ ((Catalog_Datacenters Fixture.backend_down).2 = None →
       message = "could not query Consul for nodes").
Proof.
  apply (C6_enumeration_failure_is_fatal Fixture.consul_AggregatedStatus
           Fixture.backend_down EmptyString [] Fixture.refused).
  left. reflexivity.
Defined.

Lemma C7_witness :
  Node_Health Fixture.consul_AggregatedStatus (populate Fixture.backend Fixture.node_C)
  = Fixture.consul_AggregatedStatus []
  ∧ (∀ n', Health_Node (client n') (Node_Name n') = ([], None) →
           Node_Health Fixture.consul_AggregatedStatus n'
           = Fixture.consul_AggregatedStatus [])
  ∧ ∃ (environments : EnvironmentList) env,
      loadEnvironments Fixture.consul_AggregatedStatus Fixture.backend EmptyString
                       ["passing"]
      = Done (Some environments, None)
      ∧ environments !! consulApi.Datacenter Fixture.node_C = Some env
      ∧ (populate Fixture.backend Fixture.node_C ∈ Nodes env
         ↔ ["passing"] = [] ∨ Fixture.consul_AggregatedStatus [] ∈ ["passing"]).
Proof.
  apply (C7_failed_health_query_is_swallowed Fixture.consul_AggregatedStatus
           Fixture.backend EmptyString ["passing"] ["dc1"; "dc2"]
           [Fixture.node_A; Fixture.node_B; Fixture.node_C]
           Fixture.node_C [] Fixture.refused);
    [reflexivity | reflexivity | | | reflexivity].
  - intros node Hin. rewrite !elem_of_cons in Hin.
    destruct Hin as [-> | [-> | [-> | Hin]]];
      [compute_done.. | by apply elem_of_nil in Hin].
  - do 2 right. left.
Defined.

Lemma C8_witness :
  Node_Checks (list string) [] unit Fixture.unreachable Fixture.read_nothing
              Fixture.decode_nothing (populate Fixture.backend Fixture.node_A)
  = (None, [Fixture.refused])
  ∧ ∀ AggregatedStatus query_filter health_filter dcs nodes,
      Catalog_Datacenters Fixture.backend = (dcs, None) →
      Catalog_Nodes Fixture.backend query_filter = (nodes, None) →
      (∀ node, node ∈ nodes → consulApi.Datacenter node ∈ dcs) →
      Fixture.node_A ∈ nodes →
      passes_health AggregatedStatus health_filter
                    (populate Fixture.backend Fixture.node_A) →
      ∃ (environments : EnvironmentList) env,
        loadEnvironments AggregatedStatus Fixture.backend query_filter health_filter
        = Done (Some environments, None)
        ∧ environments !! consulApi.Datacenter Fixture.node_A = Some env
        ∧ populate Fixture.backend Fixture.node_A ∈ Nodes env.
Proof.
  apply (C8_check_failure_yields_absent_report [] Fixture.unreachable
           Fixture.read_nothing Fixture.decode_nothing
           (populate Fixture.backend Fixture.node_A) Fixture.refused).
  left. reflexivity.
Defined.

Lemma C10_witness :
  ((∀ node, node ∈ [Fixture.node_A; Fixture.node_stray] →
            consulApi.Datacenter node ∈ ["dc1"]) →
   ∃ environments : EnvironmentList,
     loadEnvironments Fixture.consul_AggregatedStatus Fixture.backend_stray EmptyString []
     = Done (Some environments, None))
  ∧ ((∃ node, node ∈ [Fixture.node_A; Fixture.node_stray]
              ∧ passes_health Fixture.consul_AggregatedStatus []
                  (populate Fixture.backend_stray node)
              ∧ consulApi.Datacenter node ∉ ["dc1"]) →
     loadEnvironments Fixture.consul_AggregatedStatus Fixture.backend_stray EmptyString []
     = Panic nil_dereference).
Proof.
  apply (C10_stray_datacenter_panics Fixture.consul_AggregatedStatus
           Fixture.backend_stray EmptyString [] ["dc1"]
           [Fixture.node_A; Fixture.node_stray]); reflexivity.
Defined.

(** C7, as first stated, fails. The claim: when the health query of a
    node fails, the accessor returns an aggregate distinct from any real
    status. On the sample backend the query for [C] fails and hands back no
    checks, the query for [S] succeeds with no checks, and the query for
    [A] succeeds with one passing check: whatever the aggregation, [C]
    reads exactly as [S] does, and with the Consul precedence all three
    read [passing], so a health filter on [passing] lets [C] through. *)
Lemma C7_failed_query_reads_as_real_status :
  Health_Node Fixture.backend "C" = ([], Some Fixture.refused)
  ∧ Health_Node Fixture.backend "S" = ([], None)
  ∧ (∀ AggregatedStatus,
       Node_Health AggregatedStatus (populate Fixture.backend Fixture.node_C)
       = Node_Health AggregatedStatus (populate Fixture.backend Fixture.node_stray))
  ∧ Node_Health Fixture.consul_AggregatedStatus (populate Fixture.backend Fixture.node_C)
    = "passing"
  ∧ Node_Health Fixture.consul_AggregatedStatus (populate Fixture.backend Fixture.node_A)
    = "passing"
  ∧ health_gate Fixture.consul_AggregatedStatus ["passing"]
      (populate Fixture.backend Fixture.node_C) = true.
Proof. repeat split. Qed.

(** C10, as first stated, fails. The claim: without the precondition, a
    node whose datacenter is absent from the enumerated list makes the load
    crash. On the sample backend the catalog lists [dc1] only and returns
    the node [S] of [dc9]; under the health filter [critical] that node
    does not pass the gate, its Environment is never read, and the load
    returns the seeded map. *)
Lemma C10_stray_node_behind_health_gate_returns :
  Catalog_Datacenters Fixture.backend_stray = (["dc1"], None)
  ∧ Catalog_Nodes Fixture.backend_stray EmptyString
    = ([Fixture.node_A; Fixture.node_stray], None)
  ∧ (consulApi.Datacenter Fixture.node_stray ∉ ["dc1"])
  ∧ loadEnvironments Fixture.consul_AggregatedStatus Fixture.backend_stray EmptyString
                     ["critical"]
    = Done (Some {[ "dc1" := {| Name := "dc1"; Nodes := [] |} ]}, None)
  ∧ loadEnvironments Fixture.consul_AggregatedStatus Fixture.backend_stray EmptyString
                     ["critical"]
    ≠ Panic nil_dereference.
Proof.
  split; [reflexivity|]. split; [reflexivity|]. split; [compute_done|].
  split; [by vm_compute | by vm_compute].
Qed.

(** * Further properties of the code *)

(** ** Membership test and filter query builder *)

(** X1. [contains] answers true exactly for the strings that occur in the
    slice, and false for all others, the empty slice included. *)
Theorem contains_true_iff_member (s : list string) (str : string) :
  (contains s str = true ↔ str ∈ s) ∧ (contains s str = false ↔ str ∉ s).
Proof.
  pose proof (contains_elem_of s str) as Hiff. split; [done|].
  destruct (contains s str); split; try done.
  - intros Hnotin. destruct Hnotin. by apply Hiff.
  - intros _ Hin. by apply Hiff in Hin.
Qed.

(** X2. For a list of pairwise distinct values the per-tag sub-expression
    is the equality clauses of the values, in order, separated by [ or ];
    the empty list gives the empty sub-expression. *)
Theorem tag_filter_distinct_values (key : string) (values : list string) :
  NoDup values →
  tag_filter key values = GoString.Join (meta_clause key <$> values) " or ".
Proof.
  intros Hnodup. destruct values as [|v front _] using rev_ind; [done|].
  apply NoDup_app in Hnodup as (_ & Hdisjoint & _).
  apply tag_filter_disjunction. intros Hin.
  apply (Hdisjoint v Hin). left.
Qed.

(** The builder's output is a function of the reserved entries visited,
    in their order. *)
Lemma CreateFilterMetaQuery_range_ext (entries entries' : list (string * list string)) :
  filter (λ e, GoString.HasPrefix e.1 TRENTO_PREFIX = true) entries
  = filter (λ e, GoString.HasPrefix e.1 TRENTO_PREFIX = true) entries' →
  CreateFilterMetaQuery_range entries = CreateFilterMetaQuery_range entries'.
Proof. intros Heq. by rewrite !CreateFilterMetaQuery_range_join, Heq. Qed.

Lemma range_order_entries_NoDup {V : Type} (m : gmap string V) entries :
  range_order m entries → NoDup entries.
Proof. intros Horder. eapply NoDup_fmap_1, range_order_NoDup, Horder. Qed.

(** X3. A key without the reserved prefix has no influence on the filter
    expression: the builder can return exactly the same strings for a
    query and for that query with the key removed. *)
Theorem CreateFilterMetaQuery_ignores_unreserved_key
    (query : gmap string (list string)) (key out : string) :
  GoString.HasPrefix key TRENTO_PREFIX = false →
  CreateFilterMetaQuery query out ↔ CreateFilterMetaQuery (delete key query) out.
Proof.
  intros Hkey. split.
  - intros [entries Horder].
    rewrite (CreateFilterMetaQuery_range_ext entries
               (filter (λ e, e.1 ≠ key) entries)).
    + constructor. apply NoDup_Permutation.
      * apply NoDup_filter. by eapply range_order_entries_NoDup.
      * apply NoDup_map_to_list.
      * intros [k v]. rewrite list_elem_of_filter, elem_of_map_to_list.
        rewrite (range_order_elem_of query) by done.
        rewrite lookup_delete_Some. simpl. split; intros [? ?]; split; congruence.
    + rewrite list_filter_filter. apply list_filter_iff. intros [k v]. simpl.
      split; [|by intros [? _]]. intros Hk. split; [done|]. congruence.
  - intros [entries Horder].
    destruct (query !! key) as [values|] eqn:Hlookup.
    + rewrite (CreateFilterMetaQuery_range_ext entries ((key, values) :: entries)).
      * constructor. unfold range_order in *.
        rewrite Horder. by apply map_to_list_delete.
      * rewrite filter_cons. simpl. by rewrite decide_False by congruence.
    + constructor. by rewrite delete_id in Horder.
Qed.

Lemma NoDup_all_equal {A : Type} (l : list A) (x : A) :
  NoDup l → x ∈ l → (∀ y, y ∈ l → y = x) → l = [x].
Proof.
  intros Hnodup Hin Hall. destruct l as [|a l]; [by apply elem_of_nil in Hin|].
  rewrite (Hall a) by left. destruct l as [|b l]; [done|].
  apply NoDup_cons in Hnodup as [Hfresh _]. destruct Hfresh.
  rewrite (Hall a), <-(Hall b); [left | by right; left | left].
Qed.

(** X4. When exactly one key of the query carries the reserved prefix, the
    filter expression does not depend on the order in which the map is
    ranged over: it is that tag's sub-expression, with no [ and ]. *)
Theorem CreateFilterMetaQuery_single_reserved_key
    (query : gmap string (list string)) (key : string) (values : list string)
    (out : string) :
  query !! key = Some values →
  GoString.HasPrefix key TRENTO_PREFIX = true →
  (∀ key', key' ≠ key → is_Some (query !! key') →
           GoString.HasPrefix key' TRENTO_PREFIX = false) →
  CreateFilterMetaQuery query out →
  out = tag_filter key values.
Proof.
  intros Hlookup Hkey Hothers [entries Horder].
  rewrite CreateFilterMetaQuery_range_join.
  rewrite (NoDup_all_equal _ (key, values)); [done | | |].
  - apply NoDup_filter. by eapply range_order_entries_NoDup.
  - apply list_elem_of_filter. split; [done|].
    by apply (range_order_elem_of query).
  - intros [k v] [Hk Hin]%list_elem_of_filter. simpl in Hk.
    apply (range_order_elem_of query) in Hin; [|done].
    destruct (decide (k = key)) as [->|Hne]; [congruence|].
    rewrite Hothers in Hk; [done | done | by eexists].
Qed.

(** ** Topology loader *)

Section TopologyFurther.

Context (AggregatedStatus : list consulApi.HealthCheck → string).


(** Every way the load can return a list, read backwards. *)
Lemma loadEnvironments_inv c query_filter health_filter (environments : EnvironmentList) :
  loadEnvironments AggregatedStatus c query_filter health_filter
    = Done (Some environments, None) →
  ∃ dcs nodes,
    Catalog_Datacenters c = (dcs, None)
    ∧ Catalog_Nodes c query_filter = (nodes, None)
    ∧ (∀ node, node ∈ nodes → ¬ stray_node AggregatedStatus c health_filter dcs node)
    ∧ ∀ dc, environments !! dc
            = if decide (dc ∈ dcs)
              then Some {| Name := dc;
                           Nodes := expected_nodes AggregatedStatus c health_filter dc nodes |}
              else None.
Proof.
  intros Hrun.
  destruct (Catalog_Datacenters c) as [dcs [e|]] eqn:Hdcs;
    [unfold loadEnvironments in Hrun; by rewrite Hdcs in Hrun|].
  destruct (Catalog_Nodes c query_filter) as [nodes [e|]] eqn:Hnodes;
    [unfold loadEnvironments in Hrun; by rewrite Hdcs, Hnodes in Hrun|].
  exists dcs, nodes. split; [done|]. split; [done|].
  destruct (decide (Exists (stray_node AggregatedStatus c health_filter dcs) nodes))
    as [Hstray|Hnone].
  - apply Exists_exists in Hstray as (node & Hin & Hpass & Hnotin).
    rewrite (loadEnvironments_panics AggregatedStatus c query_filter health_filter
               dcs nodes node) in Hrun; done.
  - assert (∀ node, node ∈ nodes → ¬ stray_node AggregatedStatus c health_filter dcs node)
      as Hclean.
    { intros node Hin Hstray. apply Hnone, Exists_exists. by exists node. }
    split; [done|].
    destruct (loadEnvironments_returns AggregatedStatus c query_filter health_filter
                dcs nodes) as (environments' & Hrun' & Hlookup); [done | done | |].
    + intros node Hin Hpass.
      destruct (decide (consulApi.Datacenter node ∈ dcs)) as [?|Hnotin]; [done|].
      by destruct (Hclean node Hin).
    + rewrite Hrun' in Hrun. by injection Hrun as <-.
Qed.

(** X5. With both enumerations successful, the load panics exactly when
    some returned node passes the health gate and reports a datacenter
    that was not enumerated; otherwise it returns a list and no error. *)
Theorem loadEnvironments_panics_iff_stray c query_filter health_filter dcs nodes :
  Catalog_Datacenters c = (dcs, None) →
  Catalog_Nodes c query_filter = (nodes, None) →
  ((∃ msg, loadEnvironments AggregatedStatus c query_filter health_filter = Panic msg)
   ↔ ∃ node, node ∈ nodes ∧ stray_node AggregatedStatus c health_filter dcs node)
  ∧ ((∃ environments : EnvironmentList,
        loadEnvironments AggregatedStatus c query_filter health_filter
          = Done (Some environments, None))
     ↔ ∀ node, node ∈ nodes → ¬ stray_node AggregatedStatus c health_filter dcs node).
Proof.
  intros Hdcs Hnodes.
  assert ((∃ node, node ∈ nodes ∧ stray_node AggregatedStatus c health_filter dcs node) →
          loadEnvironments AggregatedStatus c query_filter health_filter
            = Panic nil_dereference) as Hpanic.
  { intros (node & Hin & Hpass & Hnotin).
    by apply (loadEnvironments_panics AggregatedStatus c query_filter health_filter
                dcs nodes node). }
  assert ((∀ node, node ∈ nodes → ¬ stray_node AggregatedStatus c health_filter dcs node) →
          ∃ environments : EnvironmentList,
            loadEnvironments AggregatedStatus c query_filter health_filter
              = Done (Some environments, None))
    as Hreturn.
  { intros Hclean.
    destruct (loadEnvironments_returns AggregatedStatus c query_filter health_filter
                dcs nodes) as (environments & Hrun & _); [done | done | |].
    - intros node Hin Hpass.
      destruct (decide (consulApi.Datacenter node ∈ dcs)) as [?|Hnotin]; [done|].
      by destruct (Hclean node Hin).
    - by exists environments. }
  split; split.
  - intros [msg Hrun].
    destruct (decide (Exists (stray_node AggregatedStatus c health_filter dcs) nodes))
      as [Hstray|Hnone].
    + by apply Exists_exists in Hstray.
    + destruct Hreturn as [environments Hrun'].
      * intros node Hin Hstray. apply Hnone, Exists_exists. by exists node.
      * congruence.
  - intros Hstray. exists nil_dereference. by apply Hpanic.
  - intros [environments Hrun] node Hin Hstray.
    rewrite Hpanic in Hrun; [done | by exists node].
  - done.
Qed.

(** The three ways the load can end. *)
Lemma loadEnvironments_outcomes c query_filter health_filter :
  (∃ environments : EnvironmentList,
      loadEnvironments AggregatedStatus c query_filter health_filter
        = Done (Some environments, None))
  ∨ (∃ e message,
       loadEnvironments AggregatedStatus c query_filter health_filter
         = Done (None, Some (Wrapped e message)))
  ∨ loadEnvironments AggregatedStatus c query_filter health_filter = Panic nil_dereference.
Proof.
  destruct (Catalog_Datacenters c) as [dcs [e|]] eqn:Hdcs.
  { right. left. exists e. eexists. unfold loadEnvironments. by rewrite Hdcs. }
  destruct (Catalog_Nodes c query_filter) as [nodes [e|]] eqn:Hnodes.
  { right. left. exists e. eexists. unfold loadEnvironments. by rewrite Hdcs, Hnodes. }
  destruct (decide (Exists (stray_node AggregatedStatus c health_filter dcs) nodes))
    as [Hstray|Hnone].
  - right. right. apply Exists_exists in Hstray as (node & Hin & Hpass & Hnotin).
    by apply (loadEnvironments_panics AggregatedStatus c query_filter health_filter
                dcs nodes node).
  - left.
    destruct (loadEnvironments_returns AggregatedStatus c query_filter health_filter
                dcs nodes) as (environments & Hrun & _); [done | done | |].
    + intros node Hin Hpass.
      destruct (decide (consulApi.Datacenter node ∈ dcs)) as [?|Hnotin]; [done|].
      destruct Hnone. apply Exists_exists. by exists node.
    + by exists environments.
Qed.

(** X6. The load never returns a list together with an error, nor
    neither of them; an error it returns is always a wrapped one; and the
    only panic it can raise is the nil dereference. *)
Theorem loadEnvironments_list_xor_error c query_filter health_filter :
  (∀ (environments : option EnvironmentList) err,
      loadEnvironments AggregatedStatus c query_filter health_filter
        = Done (environments, err) →
      (is_Some environments ↔ err = None)
      ∧ ∀ e, err = Some e → ∃ cause message, e = Wrapped cause message)
  ∧ ∀ msg, loadEnvironments AggregatedStatus c query_filter health_filter
    = Panic msg → msg = nil_dereference.
Proof.
  destruct (loadEnvironments_outcomes c query_filter health_filter)
    as [[environments Hrun] | [(cause & message & Hrun) | Hrun]]; rewrite Hrun.
  - split; [|done]. intros ? ? [= <- <-]. split; [|done]. split; [done | by eexists].
  - split; [|done]. intros ? ? [= <- <-]. split.
    + split; [by intros [? ?] | done].
    + intros e [= <-]. by exists cause, message.
  - split; [done|]. by intros msg [= <-].
Qed.

(** X7. In every list the load returns, an Environment sits under its
    own name, that name is an enumerated datacenter, and each of its
    nodes is a node the catalog returned, bound to the client of the load,
    reporting that datacenter and passing the health gate. *)
Theorem loadEnvironments_result_invariant
    c query_filter health_filter (environments : EnvironmentList) dc env :
  loadEnvironments AggregatedStatus c query_filter health_filter
    = Done (Some environments, None) →
  environments !! dc = Some env →
  Name env = dc
  ∧ dc ∈ (Catalog_Datacenters c).1
  ∧ ∀ n, n ∈ Nodes env →
         consulApi.Datacenter (base n) = dc
         ∧ client n = c
         ∧ base n ∈ (Catalog_Nodes c query_filter).1
         ∧ passes_health AggregatedStatus health_filter n.
Proof.
  intros Hrun Henv.
  apply loadEnvironments_inv in Hrun as (dcs & nodes & Hdcs & Hnodes & _ & Hlookup).
  rewrite Hlookup in Henv. case_decide as Hdc; [|done]. injection Henv as <-.
  rewrite Hdcs, Hnodes. simpl. split; [done|]. split; [done|].
  intros n Hn. unfold expected_nodes in Hn.
  apply list_elem_of_filter in Hn as [[Hn_dc Hn_pass] Hn].
  apply list_elem_of_fmap in Hn as (node & -> & Hnode). done.
Qed.

(** X8. Filtering by health inside the load is the same as loading
    without a health filter and then keeping, in each Environment, the
    nodes whose aggregated status is in the filter. *)
Theorem loadEnvironments_health_filter_commutes
    c query_filter health_filter dcs nodes :
  Catalog_Datacenters c = (dcs, None) →
  Catalog_Nodes c query_filter = (nodes, None) →
  (∀ node, node ∈ nodes → consulApi.Datacenter node ∈ dcs) →
  health_filter ≠ [] →
  ∃ unfiltered filtered : EnvironmentList,
    loadEnvironments AggregatedStatus c query_filter [] = Done (Some unfiltered, None)
    ∧ loadEnvironments AggregatedStatus c query_filter health_filter
      = Done (Some filtered, None)
    ∧ ∀ dc, filtered !! dc
            = (λ env, {| Name := Name env;
                         Nodes := filter (λ n, Node_Health AggregatedStatus n
                                               ∈ health_filter) (Nodes env) |})
              <$> unfiltered !! dc.
Proof.
  intros Hdcs Hnodes Hknown Hfilter.
  destruct (loadEnvironments_returns AggregatedStatus c query_filter [] dcs nodes)
    as (unfiltered & Hrun1 & Hlookup1); [done | done | by auto |].
  destruct (loadEnvironments_returns AggregatedStatus c query_filter health_filter
              dcs nodes) as (filtered & Hrun2 & Hlookup2); [done | done | by auto |].
  exists unfiltered, filtered. split; [done|]. split; [done|]. intros dc.
  rewrite Hlookup1, Hlookup2. case_decide; [|done]. simpl. do 2 f_equal.
  unfold expected_nodes, passes_health. rewrite list_filter_filter.
  apply list_filter_iff. intros n. split.
  - intros [? [?|?]]; [done|]. split; [done|]. split; [done | by left].
  - intros [? [? _]]. split; [done | by right].
Qed.

End TopologyFurther.

(** ** Filter vocabulary loader *)

Section VocabularyFurther.

Context (json_Unmarshal_strings : string → list string * option error).

Local Abbreviation load_one' := (loadFilter json_Unmarshal_strings).
Local Abbreviation load_loop' := (loadFilters_loop json_Unmarshal_strings).
Local Abbreviation load_all' := (loadFilters json_Unmarshal_strings).

(** What a successful run of the loop has stored. *)
Lemma loadFilters_loop_content c names (filter_data vocabulary : gmap string (list string)) :
  load_loop' c names filter_data = (Some vocabulary, None) →
  ∀ name, vocabulary !! name
          = if decide (name ∈ names)
            then Some (load_one' c (TRENTO_FILTERS_PREFIX +:+ name)).1
            else filter_data !! name.
Proof.
  revert filter_data. induction names as [|n names IH]; intros filter_data Hrun name.
  - injection Hrun as <-. by rewrite decide_False by apply not_elem_of_nil.
  - cbn [loadFilters_loop] in Hrun.
    destruct (load_one' c (TRENTO_FILTERS_PREFIX +:+ n)) as [filters [e|]] eqn:Hone;
      [done|]. cbn [not_nil] in Hrun.
    rewrite (IH _ Hrun name). destruct (decide (name ∈ names)) as [Hin|Hnotin].
    + by rewrite decide_True by (by right).
    + destruct (decide (name = n)) as [->|Hne].
      * rewrite decide_True by left. by rewrite lookup_insert_eq, Hone.
      * rewrite decide_False by (by intros [?|?]%elem_of_cons).
        by rewrite lookup_insert_ne.
Qed.

(** The loop stops at the first name that fails and passes its error on. *)
Lemma loadFilters_loop_first_failure c pre name post (e : error)
    (filter_data : gmap string (list string)) :
  (∀ n, n ∈ pre → (load_one' c (TRENTO_FILTERS_PREFIX +:+ n)).2 = None) →
  (load_one' c (TRENTO_FILTERS_PREFIX +:+ name)).2 = Some e →
  load_loop' c (pre ++ name :: post) filter_data = (None, Some e).
Proof.
  revert filter_data. induction pre as [|n pre IH]; intros filter_data Hpre Hfail.
  - cbn [app loadFilters_loop].
    destruct (load_one' c (TRENTO_FILTERS_PREFIX +:+ name)) as [filters err].
    simpl in Hfail. by subst.
  - cbn [app loadFilters_loop]. pose proof (Hpre n ltac:(left)) as Hn.
    destruct (load_one' c (TRENTO_FILTERS_PREFIX +:+ n)) as [filters err].
    simpl in Hn. subst. cbn [not_nil]. apply IH; [|done].
    intros n' Hin. apply Hpre. by right.
Qed.

(** An error of the loop is the error of one of its names. *)
Lemma loadFilters_loop_error_inv c names (e : error)
    (filter_data : gmap string (list string)) :
  load_loop' c names filter_data = (None, Some e) →
  ∃ name, name ∈ names
          ∧ (load_one' c (TRENTO_FILTERS_PREFIX +:+ name)).2 = Some e.
Proof.
  revert filter_data. induction names as [|n names IH]; intros filter_data Hrun;
    [done|]. cbn [loadFilters_loop] in Hrun.
  destruct (load_one' c (TRENTO_FILTERS_PREFIX +:+ n)) as [filters [e0|]] eqn:Hone.
  - injection Hrun as <-. exists n. split; [left | by rewrite Hone].
  - destruct (IH _ Hrun) as (name & Hin & Hfail). exists name. split; [by right | done].
Qed.

(** X9. When each of the three names loads without an error, the
    vocabulary load returns a mapping whose keys are exactly the three
    names, each bound to the list [loadFilter] returned for its key. *)
Theorem loadFilters_success_content c :
  (∀ name, name ∈ TRENTO_FILTERS →
           (load_one' c (TRENTO_FILTERS_PREFIX +:+ name)).2 = None) →
  ∃ vocabulary : gmap string (list string),
    load_all' c = (Some vocabulary, None)
    ∧ dom vocabulary = list_to_set TRENTO_FILTERS
    ∧ ∀ name, name ∈ TRENTO_FILTERS →
        vocabulary !! name = Some (load_one' c (TRENTO_FILTERS_PREFIX +:+ name)).1.
Proof.
  intros Hclean.
  destruct (loadFilters_loop_all_or_nothing json_Unmarshal_strings c TRENTO_FILTERS ∅)
    as [(vocabulary & Hrun & _) | [e Hrun]].
  - exists vocabulary. split; [done|].
    pose proof (loadFilters_loop_content c TRENTO_FILTERS ∅ vocabulary Hrun) as Hcontent.
    split.
    + apply set_eq. intros name.
      rewrite elem_of_dom, Hcontent, elem_of_list_to_set, lookup_empty.
      case_decide; [split; [done | by eexists] | split; [by intros [? ?] | done]].
    + intros name Hin. by rewrite Hcontent, decide_True.
  - apply loadFilters_loop_error_inv in Hrun as (name & Hin & Hfail).
    by rewrite Hclean in Hfail.
Qed.

(** X10. The vocabulary load reports the error of the first of the three
    names, in their fixed order, whose load fails, unchanged, and stops
    there. *)
Theorem loadFilters_first_failure c pre name post (e : error) :
  TRENTO_FILTERS = pre ++ name :: post →
  (∀ n, n ∈ pre → (load_one' c (TRENTO_FILTERS_PREFIX +:+ n)).2 = None) →
  (load_one' c (TRENTO_FILTERS_PREFIX +:+ name)).2 = Some e →
  load_all' c = (None, Some e).
Proof.
  intros Hsplit Hpre Hfail. unfold loadFilters. rewrite Hsplit.
  by apply loadFilters_loop_first_failure.
Qed.

(** X11. A fetch error or a decoding error for the key of any one of the
    three names makes the vocabulary load return a nil mapping and an
    error. *)
Theorem loadFilters_fetch_or_decode_failure_aborts c name (e : error) :
  name ∈ TRENTO_FILTERS →
  KV_Get c (TRENTO_FILTERS_PREFIX +:+ name) = (None, Some e)
  ∨ (∃ kv fetch_err partial,
       KV_Get c (TRENTO_FILTERS_PREFIX +:+ name) = (Some kv, fetch_err)
       ∧ json_Unmarshal_strings (consulApi.Value kv) = (partial, Some e)) →
  ∃ e', load_all' c = (None, Some e').
Proof.
  intros Hin Hfail.
  apply (loadFilters_failure_aborts json_Unmarshal_strings c name Hin).
  destruct Hfail as [Hget | (kv & fetch_err & partial & Hget & Hdecode)].
  - by rewrite (loadFilter_fetch_error _ c _ e Hget).
  - by rewrite (loadFilter_decode_error _ c _ kv fetch_err partial e Hget Hdecode).
Qed.

End VocabularyFurther.

(** ** Detailed check report and request handlers *)

Section HandlersFurther.

Context (AggregatedStatus : list consulApi.HealthCheck → string).
Context (json_Unmarshal_strings : string → list string * option error).
Context (Catalog_Node : Client → string → option CatalogNode * option error).
Context {Controls Response : Type} (zero_Controls : Controls).
Context (http_Get : string → Response * option error).
Context (io_ReadAll : Response → string * option error).
Context (json_Unmarshal_Controls : string → Controls → Controls * option error).

Local Abbreviation checks_of' :=
  (Node_Checks Controls zero_Controls Response http_Get io_ReadAll
               json_Unmarshal_Controls).
Local Abbreviation fails_with' :=
  (check_failure Controls zero_Controls Response http_Get io_ReadAll
                 json_Unmarshal_Controls).
Local Abbreviation list_handler :=
  (NewEnvironmentsListHandler AggregatedStatus json_Unmarshal_strings).
Local Abbreviation node_handler := (NewEnvironmentHandler Catalog_Node).
Local Abbreviation check_handler :=
  (NewCheckHandler Catalog_Node Controls zero_Controls Response http_Get io_ReadAll
                   json_Unmarshal_Controls).

(** The two ways [Checks] can end. *)
Lemma Node_Checks_cases (n : Node) :
  (∃ checks, checks_of' n = (Some checks, [])
             ∧ ∀ e, ¬ fails_with' n e)
  ∨ (∃ e, checks_of' n = (None, [e]) ∧ fails_with' n e).
Proof.
  unfold Node_Checks, check_failure.
  destruct (http_Get (checks_url n)) as [resp get_err].
  destruct (io_ReadAll resp) as [body read_err].
  destruct (json_Unmarshal_Controls body zero_Controls) as [checks decode_err].
  destruct get_err as [e|]; [right; exists e; split; [done | by left]|].
  destruct read_err as [e|]; [right; exists e; split; [done | by right; left]|].
  destruct decode_err as [e|]; [right; exists e; split; [done | by right; right]|].
  left. exists checks. split; [done|].
  by intros e [? | [[_ ?] | (_ & _ & ?)]].
Qed.

(** X12. [Checks] returns no report exactly when one of its three steps
    fails; it logs nothing exactly when it returns a report, and
    otherwise logs one error, the error of the first step that failed. *)
Theorem Node_Checks_report_or_single_log (n : Node) :
  ((checks_of' n).1 = None ↔ ∃ e, fails_with' n e)
  ∧ ((checks_of' n).2 = [] ↔ is_Some (checks_of' n).1)
  ∧ ∀ e, e ∈ (checks_of' n).2 → (checks_of' n).2 = [e] ∧ fails_with' n e.
Proof.
  destruct (Node_Checks_cases n) as [(checks & Hrun & Hnone) | (e & Hrun & Hfail)];
    rewrite Hrun; simpl.
  - split; [split; [done | by intros [e ?%Hnone]]|].
    split; [split; [by eexists | done]|]. by intros e ?%elem_of_nil.
  - split; [split; [by exists e | done]|].
    split; [split; [done | by intros [? ?]]|].
    by intros e' ->%list_elem_of_singleton.
Qed.

(** X13. When the datacenter enumeration fails, the list handler attaches
    that failure, wrapped, to the context and renders nothing, whatever
    the query values, the order they are ranged over and the state of the
    key-value store. *)
Theorem EnvironmentsListHandler_topology_error_first
    c (query : gmap string (list string)) r (e : error) :
  list_handler c query r →
  (Catalog_Datacenters c).2 = Some e →
  r = Done (Errored (Wrapped e "could not query Consul for datacenters")).
Proof.
  intros [entries _] Hfail. unfold EnvironmentsListHandler_range, loadEnvironments.
  destruct (Catalog_Datacenters c) as [dcs err]. simpl in Hfail. by subst.
Qed.

(** X14. Whenever the list handler renders a page, it does so with status
    200 on the environments template; the page shows the query values as
    applied filters, Environments for exactly the enumerated datacenters,
    only nodes that pass the gate for the values of the [health] key, and
    a vocabulary for exactly the three filter names. *)
Theorem EnvironmentsListHandler_rendered_page
    c (query : gmap string (list string)) code name page :
  list_handler c query (Done (HTML code name page)) →
  code = 200
  ∧ name = "environments.html.tmpl"
  ∧ Page_AppliedFilters page = query
  ∧ ∃ (environments : EnvironmentList) (vocabulary : gmap string (list string)),
      Page_Environments page = Some environments
      ∧ Page_Filters page = Some vocabulary
      ∧ dom environments = list_to_set (Catalog_Datacenters c).1
      ∧ dom vocabulary = list_to_set TRENTO_FILTERS
      ∧ ∀ dc env n, environments !! dc = Some env → n ∈ Nodes env →
          passes_health AggregatedStatus (default [] (query !! "health")) n.
Proof.
  intros Hrun. inversion Hrun as [entries Horder Heq]. clear Hrun.
  unfold EnvironmentsListHandler_range in Heq.
  destruct (loadEnvironments_outcomes AggregatedStatus c
              (CreateFilterMetaQuery_range entries) (default [] (query !! "health")))
    as [[environments Hload] | [(e & message & Hload) | Hload]];
    rewrite Hload in Heq; [|done..]. cbn [mbind outcome_bind] in Heq.
  destruct (loadFilters json_Unmarshal_strings c) as [filters [e|]] eqn:Hvocabulary;
    [done|].
  injection Heq as <- <- <-. split; [done|]. split; [done|]. split; [done|].
  destruct (loadFilters_loop_all_or_nothing json_Unmarshal_strings c TRENTO_FILTERS ∅)
    as [(vocabulary & Hloop & _) | [e Hloop]];
    unfold loadFilters in Hvocabulary; rewrite Hloop in Hvocabulary; [|done].
  injection Hvocabulary as <-.
  exists environments, vocabulary. split; [done|]. split; [done|].
  pose proof (loadFilters_loop_content json_Unmarshal_strings c TRENTO_FILTERS ∅
                vocabulary Hloop) as Hcontent.
  pose proof Hload as Hinv.
  apply loadEnvironments_inv in Hinv as (dcs & nodes & Hdcs & _ & _ & Hlookup).
  split; [|split].
  - rewrite Hdcs. apply set_eq. intros dc.
    rewrite elem_of_dom, Hlookup, elem_of_list_to_set.
    case_decide; [split; [done | by eexists] | split; [by intros [? ?] | done]].
  - apply set_eq. intros filter.
    rewrite elem_of_dom, Hcontent, elem_of_list_to_set, lookup_empty.
    case_decide; [split; [done | by eexists] | split; [by intros [? ?] | done]].
  - intros dc env n Henv Hn. rewrite Hlookup in Henv.
    case_decide; [|done]. injection Henv as <-. unfold expected_nodes in Hn.
    by apply list_elem_of_filter in Hn as [[_ ?] _].
Qed.

(** X15. The node handler renders a page exactly when the catalog lookup
    returns a node with a nil error and the health query of
    [loadHealthChecks] for the requested name succeeds; the page is then
    status 200 on the environment template, with that node bound to the
    client and the checks that query returned. *)
Theorem EnvironmentHandler_renders_iff c name code template page :
  node_handler c name = Done (HTML code template page)
  ↔ ∃ catalogNode node checks,
      Catalog_Node c name = (Some catalogNode, None)
      ∧ CatalogNode_Node catalogNode = Some node
      ∧ Health_Node c name = (checks, None)
      ∧ code = 200
      ∧ template = "environment.html.tmpl"
      ∧ page = {| Page_Node := populate c node; Page_HealthChecks := checks |}.
Proof.
  unfold NewEnvironmentHandler, loadHealthChecks, node_of_catalog. split.
  - destruct (Catalog_Node c name) as [catalogNode [e|]]; [done|].
    destruct (Health_Node c name) as [checks [e|]]; [done|]. cbn [not_nil].
    destruct catalogNode as [catalogNode|]; [|done].
    destruct (CatalogNode_Node catalogNode) as [node|] eqn:Hnode; [|done].
    cbn [mbind outcome_bind]. intros [= <- <- <-].
    by exists catalogNode, node, checks.
  - intros (catalogNode & node & checks & -> & Hnode & -> & -> & -> & ->).
    by rewrite Hnode.
Qed.

(** X16. When the catalog answers a nil node with a nil error, the check
    handler panics on the nil pointer; the node handler panics likewise
    if the health query succeeds, and reports the wrapped health error
    without panicking if it fails. *)
Theorem handlers_on_unknown_node c name checkid :
  Catalog_Node c name = (None, None) →
  check_handler c name checkid = Panic nil_dereference
  ∧ ((Health_Node c name).2 = None →
     node_handler c name = Panic nil_dereference)
  ∧ ∀ e, (Health_Node c name).2 = Some e →
         node_handler c name
         = Done (Errored (Wrapped e "could not query Consul for health checks")).
Proof.
  intros Hcatalog. unfold NewCheckHandler, NewEnvironmentHandler, loadHealthChecks.
  rewrite Hcatalog. destruct (Health_Node c name) as [checks err]. simpl.
  split; [done|]. split; [by intros -> | by intros e ->].
Qed.


End HandlersFurther.

(** * The further properties on the sample backends *)

Lemma tag_filter_distinct_values_witness :
  tag_filter "trento-sap-environment" ["prod"; "dev"]
  = GoString.Join (meta_clause "trento-sap-environment" <$> ["prod"; "dev"]) " or ".
Proof.
  apply (tag_filter_distinct_values "trento-sap-environment" ["prod"; "dev"]).
  compute_done.
Defined.

Lemma CreateFilterMetaQuery_ignores_unreserved_key_witness :
  CreateFilterMetaQuery Fixture.query
    (CreateFilterMetaQuery_range (map_to_list Fixture.query))
  ↔ CreateFilterMetaQuery (delete "health" Fixture.query)
      (CreateFilterMetaQuery_range (map_to_list Fixture.query)).
Proof.
  apply (CreateFilterMetaQuery_ignores_unreserved_key Fixture.query "health").
  reflexivity.
Defined.

Lemma CreateFilterMetaQuery_single_reserved_key_witness :
  CreateFilterMetaQuery_range (map_to_list Sample.query_one_tag)
  = tag_filter "trento-sap-environment" ["prod"].
Proof.
  apply (CreateFilterMetaQuery_single_reserved_key Sample.query_one_tag
           "trento-sap-environment" ["prod"]).
  - reflexivity.
  - reflexivity.
  - intros key' Hne [values Hlookup]. unfold Sample.query_one_tag in Hlookup.
    rewrite lookup_insert_ne in Hlookup by done.
    apply lookup_singleton_Some in Hlookup as [<- _]. reflexivity.
  - constructor. unfold range_order. reflexivity.
Defined.

Lemma loadEnvironments_panics_iff_stray_witness :
  ((∃ msg, loadEnvironments Fixture.consul_AggregatedStatus Fixture.backend_stray
             EmptyString [] = Panic msg)
   ↔ ∃ node, node ∈ [Fixture.node_A; Fixture.node_stray]
             ∧ stray_node Fixture.consul_AggregatedStatus Fixture.backend_stray []
                 ["dc1"] node)
  ∧ ((∃ environments : EnvironmentList,
        loadEnvironments Fixture.consul_AggregatedStatus Fixture.backend_stray
          EmptyString [] = Done (Some environments, None))
     ↔ ∀ node, node ∈ [Fixture.node_A; Fixture.node_stray] →
               ¬ stray_node Fixture.consul_AggregatedStatus Fixture.backend_stray []
                   ["dc1"] node).
Proof.
  apply (loadEnvironments_panics_iff_stray Fixture.consul_AggregatedStatus
           Fixture.backend_stray EmptyString [] ["dc1"]
           [Fixture.node_A; Fixture.node_stray]); reflexivity.
Defined.

Lemma loadEnvironments_result_invariant_witness :
  Name {| Name := "dc1"; Nodes := [populate Fixture.backend Fixture.node_B] |} = "dc1"
  ∧ "dc1" ∈ (Catalog_Datacenters Fixture.backend).1
  ∧ ∀ n, n ∈ Nodes {| Name := "dc1"; Nodes := [populate Fixture.backend Fixture.node_B] |} →
         consulApi.Datacenter (base n) = "dc1"
         ∧ client n = Fixture.backend
         ∧ base n ∈ (Catalog_Nodes Fixture.backend EmptyString).1
         ∧ passes_health Fixture.consul_AggregatedStatus ["critical"] n.
Proof.
  apply (loadEnvironments_result_invariant Fixture.consul_AggregatedStatus
           Fixture.backend EmptyString ["critical"]
           {[ "dc1" := {| Name := "dc1"; Nodes := [populate Fixture.backend Fixture.node_B] |};
              "dc2" := {| Name := "dc2"; Nodes := [] |} ]}).
  - vm_compute. reflexivity.
  - vm_compute. reflexivity.
Defined.

Lemma loadEnvironments_health_filter_commutes_witness :
  ∃ unfiltered filtered : EnvironmentList,
    loadEnvironments Fixture.consul_AggregatedStatus Fixture.backend EmptyString []
    = Done (Some unfiltered, None)
    ∧ loadEnvironments Fixture.consul_AggregatedStatus Fixture.backend EmptyString
        ["critical"]
      = Done (Some filtered, None)
    ∧ ∀ dc, filtered !! dc
            = (λ env, {| Name := Name env;
                         Nodes := filter (λ n, Node_Health Fixture.consul_AggregatedStatus n
                                               ∈ ["critical"]) (Nodes env) |})
              <$> unfiltered !! dc.
Proof.
  apply (loadEnvironments_health_filter_commutes Fixture.consul_AggregatedStatus
           Fixture.backend EmptyString ["critical"] ["dc1"; "dc2"]
           [Fixture.node_A; Fixture.node_B; Fixture.node_C]);
    [reflexivity | reflexivity | | done].
  intros node Hin. rewrite !elem_of_cons in Hin.
  destruct Hin as [-> | [-> | [-> | Hin]]]; [compute_done.. | by apply elem_of_nil in Hin].
Defined.

Lemma loadFilters_success_content_witness :
  ∃ vocabulary : gmap string (list string),
    loadFilters Fixture.decode Sample.backend_full = (Some vocabulary, None)
    ∧ dom vocabulary = list_to_set TRENTO_FILTERS
    ∧ ∀ name, name ∈ TRENTO_FILTERS →
        vocabulary !! name
        = Some (loadFilter Fixture.decode Sample.backend_full
                  (TRENTO_FILTERS_PREFIX +:+ name)).1.
Proof.
  apply (loadFilters_success_content Fixture.decode Sample.backend_full).
  intros name Hin. unfold TRENTO_FILTERS in Hin. rewrite !elem_of_cons in Hin.
  destruct Hin as [-> | [-> | [-> | Hin]]]; [reflexivity.. | by apply elem_of_nil in Hin].
Defined.

Lemma loadFilters_first_failure_witness :
  loadFilters Fixture.decode Fixture.backend_garbled
  = (None, Some (Wrapped (BackendError "invalid character")
                         "error decoding the filter data")).
Proof.
  apply (loadFilters_first_failure Fixture.decode Fixture.backend_garbled
           ["sap-environments"; "sap-landscapes"] "sap-systems" []).
  - reflexivity.
  - intros n Hin. rewrite !elem_of_cons in Hin.
    destruct Hin as [-> | [-> | Hin]]; [reflexivity.. | by apply elem_of_nil in Hin].
  - reflexivity.
Defined.

Lemma loadFilters_fetch_or_decode_failure_aborts_witness :
  ∃ e', loadFilters Fixture.decode Fixture.backend_down = (None, Some e').
Proof.
  apply (loadFilters_fetch_or_decode_failure_aborts Fixture.decode Fixture.backend_down
           "sap-landscapes" Fixture.refused).
  - compute_done.
  - left. reflexivity.
Defined.

Lemma EnvironmentsListHandler_topology_error_first_witness :
  EnvironmentsListHandler_range Fixture.consul_AggregatedStatus Fixture.decode
    Fixture.backend_down Fixture.query (map_to_list Fixture.query)
  = Done (Errored (Wrapped Fixture.refused "could not query Consul for datacenters")).
Proof.
  apply (EnvironmentsListHandler_topology_error_first Fixture.consul_AggregatedStatus
           Fixture.decode Fixture.backend_down Fixture.query _ Fixture.refused).
  - constructor. unfold range_order. reflexivity.
  - reflexivity.
Defined.

Lemma EnvironmentsListHandler_rendered_page_witness :
  200 = 200
  ∧ "environments.html.tmpl" = "environments.html.tmpl"
  ∧ Page_AppliedFilters Sample.rendered_page = Sample.query_one_tag
  ∧ ∃ (environments : EnvironmentList) (vocabulary : gmap string (list string)),
      Page_Environments Sample.rendered_page = Some environments
      ∧ Page_Filters Sample.rendered_page = Some vocabulary
      ∧ dom environments = list_to_set (Catalog_Datacenters Sample.backend_full).1
      ∧ dom vocabulary = list_to_set TRENTO_FILTERS
      ∧ ∀ dc env n, environments !! dc = Some env → n ∈ Nodes env →
          passes_health Fixture.consul_AggregatedStatus
            (default [] (Sample.query_one_tag !! "health")) n.
Proof.
  apply (EnvironmentsListHandler_rendered_page Fixture.consul_AggregatedStatus
           Fixture.decode Sample.backend_full Sample.query_one_tag 200
           "environments.html.tmpl" Sample.rendered_page).
  replace (Done (HTML 200 "environments.html.tmpl" Sample.rendered_page))
    with (EnvironmentsListHandler_range Fixture.consul_AggregatedStatus Fixture.decode
            Sample.backend_full Sample.query_one_tag
            (map_to_list Sample.query_one_tag))
    by (vm_compute; reflexivity).
  constructor. unfold range_order. reflexivity.
Defined.

Lemma handlers_on_unknown_node_witness :
  NewCheckHandler Sample.catalog_node (list string) [] unit Fixture.unreachable
    Fixture.read_nothing Fixture.decode_nothing Fixture.backend "Z" "check-1"
  = Panic nil_dereference
  ∧ ((Health_Node Fixture.backend "Z").2 = None →
     NewEnvironmentHandler Sample.catalog_node Fixture.backend "Z"
     = Panic nil_dereference)
  ∧ ∀ e, (Health_Node Fixture.backend "Z").2 = Some e →
         NewEnvironmentHandler Sample.catalog_node Fixture.backend "Z"
         = Done (Errored (Wrapped e "could not query Consul for health checks")).
Proof.
  apply (handlers_on_unknown_node Sample.catalog_node [] Fixture.unreachable
           Fixture.read_nothing Fixture.decode_nothing Fixture.backend "Z" "check-1").
  reflexivity.
Defined.

